(** * sofa-mosn: upstream health checking, stats store, sofarpc timer, router headers

    A shallow embedding of
      - pkg/upstream/healthcheck/factory.go  (session-factory registry and the
        healthChecker orchestrator),
      - the stats store (package stats: NewStats, mapEqual),
      - the sofarpc reusable timer (package sofarpc: timer.start / timer.stop),
      - pkg/router/utility.go (getRouterHeaders),
    together with the properties the specification states about them.

    Conventions.  Go's int64 (and time.Duration, which is an int64) is a Z
    with the two's-complement wrap-around written out ([Int64.wrap]).  Go maps
    are stdpp [gmap]s.  Methods with a pointer receiver are functions from the
    state before the call to the state after it; what a method does to the
    outside (log lines, goroutines it spawns, callbacks it invokes) is appended
    to an effect trace. *)

From Stdlib Require Import ZArith Lia.
From stdpp Require Import gmap strings list fin_maps sorting.

Local Open Scope Z_scope.

(** ** 64-bit signed integers *)

Module Int64.

Definition modulus : Z := 2 ^ 64.
Definition min_signed : Z := - 2 ^ 63.
Definition max_signed : Z := 2 ^ 63 - 1.

(** The value an int64 holds after a computation whose mathematical result
    is [z]. *)
Definition wrap (z : Z) : Z := (z + 2 ^ 63) mod modulus - 2 ^ 63.

Definition add (x y : Z) : Z := wrap (x + y).
Definition sub (x y : Z) : Z := wrap (x - y).

Definition in_range (z : Z) : Prop := min_signed <= z <= max_signed.

End Int64.

(** ** Package healthcheck *)

Module healthcheck.

(** What factory.go imports and does not define: the [types] interfaces
    (Host, HealthCheckSession, HealthCheckSessionFactory, HealthCheckCb),
    the per-host [checker] and its constructor, the stats constructor, and
    math/rand.  They are the parameters of the development.

    A session factory is an object behind an interface: [NewSession] may
    change it, so it returns the factory after the call as well.  Go's [nil]
    session is [None].

    [Int63n r n] is the method Int63n of math/rand's Rand: for [0 < n] a
    number at least 0 and below n, and the generator after the draw. *)
Class Collaborators := {
  Host : Type;
  AddressString : Host -> string;
  Session : Type;
  SessionConfig : Type;
  HealthCheckSessionFactory : Type;
  NewSession :
    HealthCheckSessionFactory -> SessionConfig -> Host ->
    option Session * HealthCheckSessionFactory;
  TCPDialSessionFactory : HealthCheckSessionFactory;
  checker : Type;
  newChecker : Session -> Host -> checker;
  HealthCheckCb : Type;
  Rand : Type;
  NewRand : Z -> Rand;
  Int63n : Rand -> Z -> Z * Rand;
  Int63n_range : forall r n, 0 < n -> 0 <= fst (Int63n r n) < n
}.

(** types.FailureType is a string type with three named values; every other
    value of the type is [FailureOther]. *)
Inductive FailureType :=
| FailureNetwork
| FailurePassive
| FailureActive
| FailureOther (name : string).

Definition DefaultTimeout : Z := 1000000000.
Definition DefaultInterval : Z := 15 * 1000000000.

(** The gauge and the counters the orchestrator updates; a counter's
    [Inc] is an int64 addition, a gauge's [Update] a store. *)
Record healthCheckStats := {
  healthy : Z;
  success : Z;
  failure : Z;
  activeFailure : Z;
  networkFailure : Z;
  passiveFailure : Z
}.

Definition gauge_Update (v : Z) (_ : Z) : Z := v.
Definition counter_Inc (d : Z) (c : Z) : Z := Int64.add c d.

Section WithCollaborators.
Context `{C : Collaborators}.

Record HostSet := { Hosts : list Host }.
Record PrioritySet := { HostSetsByPriority : list HostSet }.
Record Cluster := { getPrioritySet : PrioritySet }.

(** v2.HealthCheck, the fields factory.go reads. *)
Record HealthCheck := {
  Protocol : string; Timeout : Z; Interval : Z;
  IntervalJitter : Z;
  HealthyThreshold : Z;
  UnhealthyThreshold : Z;
  CommonCallbacks : list string;
  cfgSessionConfig : SessionConfig;
  ServiceName : string
}.

Record healthChecker := {
  sessionConfig : SessionConfig;
  cluster : Cluster;
  sessionFactory : HealthCheckSessionFactory;
  checkers : gmap string checker;
  localProcessHealthy : Z;
  stats : healthCheckStats;
  timeout : Z;
  intervalBase : Z;
  intervalJitter : Z;
  healthyThreshold : Z;
  unhealthyThreshold : Z;
  rander : Rand;
  hostCheckCallbacks : list HealthCheckCb
}.

(** What a method does beyond the fields of the receiver. *)
Inductive Effect :=
| LogErrorf (msg : string)
| LogInfof (msg : string)
| GoStart (c : checker)
| CheckerStop (c : checker)
| Callback (cb : HealthCheckCb) (host : Host) (changed isHealthy : bool).

Record World := {
  self : healthChecker;
  effects : list Effect
}.

(** Field updates. *)
Definition set_sessionFactory f (hc : healthChecker) : healthChecker :=
  {| sessionConfig := sessionConfig hc; cluster := cluster hc;
     sessionFactory := f; checkers := checkers hc;
     localProcessHealthy := localProcessHealthy hc; stats := stats hc;
     timeout := timeout hc; intervalBase := intervalBase hc;
     intervalJitter := intervalJitter hc;
     healthyThreshold := healthyThreshold hc;
     unhealthyThreshold := unhealthyThreshold hc; rander := rander hc;
     hostCheckCallbacks := hostCheckCallbacks hc |}.

Definition set_checkers m (hc : healthChecker) : healthChecker :=
  {| sessionConfig := sessionConfig hc; cluster := cluster hc;
     sessionFactory := sessionFactory hc; checkers := m;
     localProcessHealthy := localProcessHealthy hc; stats := stats hc;
     timeout := timeout hc; intervalBase := intervalBase hc;
     intervalJitter := intervalJitter hc;
     healthyThreshold := healthyThreshold hc;
     unhealthyThreshold := unhealthyThreshold hc; rander := rander hc;
     hostCheckCallbacks := hostCheckCallbacks hc |}.

Definition set_localProcessHealthy n (hc : healthChecker) : healthChecker :=
  {| sessionConfig := sessionConfig hc; cluster := cluster hc;
     sessionFactory := sessionFactory hc; checkers := checkers hc;
     localProcessHealthy := n; stats := stats hc;
     timeout := timeout hc; intervalBase := intervalBase hc;
     intervalJitter := intervalJitter hc;
     healthyThreshold := healthyThreshold hc;
     unhealthyThreshold := unhealthyThreshold hc; rander := rander hc;
     hostCheckCallbacks := hostCheckCallbacks hc |}.

Definition set_stats s (hc : healthChecker) : healthChecker :=
  {| sessionConfig := sessionConfig hc; cluster := cluster hc;
     sessionFactory := sessionFactory hc; checkers := checkers hc;
     localProcessHealthy := localProcessHealthy hc; stats := s;
     timeout := timeout hc; intervalBase := intervalBase hc;
     intervalJitter := intervalJitter hc;
     healthyThreshold := healthyThreshold hc;
     unhealthyThreshold := unhealthyThreshold hc; rander := rander hc;
     hostCheckCallbacks := hostCheckCallbacks hc |}.

Definition set_rander r (hc : healthChecker) : healthChecker :=
  {| sessionConfig := sessionConfig hc; cluster := cluster hc;
     sessionFactory := sessionFactory hc; checkers := checkers hc;
     localProcessHealthy := localProcessHealthy hc; stats := stats hc;
     timeout := timeout hc; intervalBase := intervalBase hc;
     intervalJitter := intervalJitter hc;
     healthyThreshold := healthyThreshold hc;
     unhealthyThreshold := unhealthyThreshold hc; rander := r;
     hostCheckCallbacks := hostCheckCallbacks hc |}.

Definition set_hostCheckCallbacks cbs (hc : healthChecker) : healthChecker :=
  {| sessionConfig := sessionConfig hc; cluster := cluster hc;
     sessionFactory := sessionFactory hc; checkers := checkers hc;
     localProcessHealthy := localProcessHealthy hc; stats := stats hc;
     timeout := timeout hc; intervalBase := intervalBase hc;
     intervalJitter := intervalJitter hc;
     healthyThreshold := healthyThreshold hc;
     unhealthyThreshold := unhealthyThreshold hc; rander := rander hc;
     hostCheckCallbacks := cbs |}.

Definition set_healthy v (s : healthCheckStats) : healthCheckStats :=
  {| healthy := v; success := success s; failure := failure s;
     activeFailure := activeFailure s; networkFailure := networkFailure s;
     passiveFailure := passiveFailure s |}.
Definition set_success v (s : healthCheckStats) : healthCheckStats :=
  {| healthy := healthy s; success := v; failure := failure s;
     activeFailure := activeFailure s; networkFailure := networkFailure s;
     passiveFailure := passiveFailure s |}.
Definition set_failure v (s : healthCheckStats) : healthCheckStats :=
  {| healthy := healthy s; success := success s; failure := v;
     activeFailure := activeFailure s; networkFailure := networkFailure s;
     passiveFailure := passiveFailure s |}.
Definition set_activeFailure v (s : healthCheckStats) : healthCheckStats :=
  {| healthy := healthy s; success := success s; failure := failure s;
     activeFailure := v; networkFailure := networkFailure s;
     passiveFailure := passiveFailure s |}.
Definition set_networkFailure v (s : healthCheckStats) : healthCheckStats :=
  {| healthy := healthy s; success := success s; failure := failure s;
     activeFailure := activeFailure s; networkFailure := v;
     passiveFailure := passiveFailure s |}.
Definition set_passiveFailure v (s : healthCheckStats) : healthCheckStats :=
  {| healthy := healthy s; success := success s; failure := failure s;
     activeFailure := activeFailure s; networkFailure := networkFailure s;
     passiveFailure := v |}.

Definition on_self (f : healthChecker -> healthChecker) (w : World) : World :=
  {| self := f (self w); effects := effects w |}.
Definition emit (es : list Effect) (w : World) : World :=
  {| self := self w; effects := effects w ++ es |}.

(** *** The session-factory registry *)

Definition RegisterSessionFactory (p : string) (f : HealthCheckSessionFactory)
    (sessionFactories : gmap string HealthCheckSessionFactory)
    : gmap string HealthCheckSessionFactory :=
  <[p := f]> sessionFactories.

Definition AddHostCheckCompleteCb (cb : HealthCheckCb) (hc : healthChecker)
    : healthChecker :=
  set_hostCheckCallbacks (hostCheckCallbacks hc ++ [cb]) hc.

(** [commonCallbacks] is the package's table of named callbacks,
    [newHealthCheckStats] its stats constructor and [now] the clock
    reading that seeds the generator. *)
Definition newHealthChecker
    (commonCallbacks : gmap string HealthCheckCb)
    (newHealthCheckStats : string -> healthCheckStats) (now : Z)
    (cfg : HealthCheck) (cl : Cluster) (f : HealthCheckSessionFactory)
    : healthChecker :=
  let timeout := if decide (Timeout cfg <> 0) then Timeout cfg else DefaultTimeout in
  let interval := if decide (Interval cfg <> 0) then Interval cfg else DefaultInterval in
  let hc :=
    {| sessionConfig := cfgSessionConfig cfg;
       timeout := timeout;
       intervalBase := interval;
       intervalJitter := IntervalJitter cfg;
       healthyThreshold := HealthyThreshold cfg;
       unhealthyThreshold := UnhealthyThreshold cfg;
       cluster := cl;
       rander := NewRand now;
       hostCheckCallbacks := [];
       sessionFactory := f;
       checkers := ∅;
       localProcessHealthy := 0;
       stats := newHealthCheckStats (ServiceName cfg) |} in
  foldl (fun hc name =>
           match commonCallbacks !! name with
           | Some cb => AddHostCheckCompleteCb cb hc
           | None => hc
           end) hc (CommonCallbacks cfg).

Definition CreateHealthCheck
    (sessionFactories : gmap string HealthCheckSessionFactory)
    (commonCallbacks : gmap string HealthCheckCb)
    (newHealthCheckStats : string -> healthCheckStats) (now : Z)
    (cfg : HealthCheck) (cl : Cluster) : healthChecker :=
  let f := match sessionFactories !! Protocol cfg with
           | Some f => f
           | None => TCPDialSessionFactory
           end in
  newHealthChecker commonCallbacks newHealthCheckStats now cfg cl f.

(** *** The orchestrator

    [startCheck] and [stopCheck] run under the orchestrator's mutex from
    their first map access to their return, so calls are taken one at a
    time. *)

Definition startCheck (host : Host) (w : World) : World :=
  let addr := AddressString host in
  let hc := self w in
  match checkers hc !! addr with
  | Some _ => w
  | None =>
      match NewSession (sessionFactory hc) (sessionConfig hc) host with
      | (None, f') =>
          emit [LogErrorf
                  ("Create Health Check Session Error, Remote Address = " +:+ addr)]
               (on_self (set_sessionFactory f') w)
      | (Some s, f') =>
          let c := newChecker s host in
          emit [GoStart c;
                LogInfof ("create a health check session for " +:+ addr)]
               (on_self
                  (fun hc =>
                     set_localProcessHealthy
                       (Int64.add (localProcessHealthy hc) 1)
                       (set_checkers (<[addr := c]> (checkers hc))
                          (set_sessionFactory f' hc))) w)
      end
  end.

Definition stopCheck (host : Host) (w : World) : World :=
  let addr := AddressString host in
  let hc := self w in
  match checkers hc !! addr with
  | Some c =>
      emit [CheckerStop c;
            LogInfof ("remove a health check session for " +:+ addr)]
           (on_self
              (fun hc =>
                 set_localProcessHealthy
                   (Int64.sub (localProcessHealthy hc) 1)
                   (set_checkers (delete addr (checkers hc)) hc)) w)
  | None => w
  end.

Definition publishHealthy (hc : healthChecker) : healthChecker :=
  set_stats (set_healthy (gauge_Update (localProcessHealthy hc)
                            (healthy (stats hc))) (stats hc)) hc.

Definition Start (w : World) : World :=
  let w :=
    foldl (fun w hostSet => foldl (fun w h => startCheck h w) w (Hosts hostSet))
          w (HostSetsByPriority (getPrioritySet (cluster (self w)))) in
  on_self publishHealthy w.

Definition Stop (w : World) : World :=
  foldl (fun w hostSet => foldl (fun w h => stopCheck h w) w (Hosts hostSet))
        w (HostSetsByPriority (getPrioritySet (cluster (self w)))).

(** The hosts [Start] and [Stop] walk over, in the order of the walk. *)
Definition clusterHosts (hc : healthChecker) : list Host :=
  concat (Hosts <$> HostSetsByPriority (getPrioritySet (cluster hc))).

(** The map without the entries of the hosts of [l]. *)
Definition deletes (l : list Host) (m : gmap string checker)
    : gmap string checker :=
  foldl (fun m h => delete (AddressString h) m) m l.

(** [n] executions of [localProcessHealthy--]. *)
Definition decrements (n : nat) (x : Z) : Z :=
  Nat.iter n (fun y => Int64.sub y 1) x.

Definition OnClusterMemberUpdate (hostsAdd hostsDel : list Host) (w : World)
    : World :=
  let w := foldl (fun w h => startCheck h w) w hostsAdd in
  let w := foldl (fun w h => stopCheck h w) w hostsDel in
  on_self publishHealthy w.

Definition runCallbacks (host : Host) (changed isHealthy : bool) (w : World)
    : World :=
  let w := on_self publishHealthy w in
  foldl (fun w cb => emit [Callback cb host changed isHealthy] w)
        w (hostCheckCallbacks (self w)).

Definition getCheckInterval (hc : healthChecker) : Z * healthChecker :=
  let interval := intervalBase hc in
  if decide (intervalJitter hc > 0) then
    let '(r, g) := Int63n (rander hc) (intervalJitter hc) in
    (Int64.add interval r, set_rander g hc)
  else (interval, hc).

Definition incHealthy (host : Host) (changed : bool) (w : World) : World :=
  let w := on_self (fun hc =>
             set_stats (set_success (counter_Inc 1 (success (stats hc)))
                                    (stats hc)) hc) w in
  let w := if changed
           then on_self (fun hc => set_localProcessHealthy
                                     (Int64.add (localProcessHealthy hc) 1) hc) w
           else w in
  runCallbacks host changed true w.

Definition decHealthy (host : Host) (reason : FailureType) (changed : bool)
    (w : World) : World :=
  let w := on_self (fun hc =>
             set_stats (set_failure (counter_Inc 1 (failure (stats hc)))
                                    (stats hc)) hc) w in
  let w := if changed
           then on_self (fun hc => set_localProcessHealthy
                                     (Int64.sub (localProcessHealthy hc) 1) hc) w
           else w in
  let w :=
    match reason with
    | FailureActive =>
        on_self (fun hc =>
          set_stats (set_activeFailure
                       (counter_Inc 1 (activeFailure (stats hc))) (stats hc)) hc) w
    | FailureNetwork =>
        on_self (fun hc =>
          set_stats (set_networkFailure
                       (counter_Inc 1 (networkFailure (stats hc))) (stats hc)) hc) w
    | FailurePassive =>
        on_self (fun hc =>
          set_stats (set_passiveFailure
                       (counter_Inc 1 (passiveFailure (stats hc))) (stats hc)) hc) w
    | FailureOther _ => w
    end in
  runCallbacks host changed false w.

(** The counter agrees with the population of the checkers map: it is the
    number of checkers, as an int64. *)
Definition balanced (w : World) : Prop :=
  localProcessHealthy (self w)
  = Int64.wrap (Z.of_nat (size (checkers (self w)))).



(** The addresses of the hosts [Start] and [Stop] walk over. *)
Definition clusterAddrs (hc : healthChecker) : gset string :=
  list_to_set (AddressString <$> clusterHosts hc).

End WithCollaborators.

End healthcheck.

(** ** Package stats *)

Module stats.

Definition maxLabelCount : nat := 10.

Inductive error := errLabelCountExceeded.

(** What a go-metrics registry holds under a key. *)
Inductive metric :=
| Counter (count : Z)
| Gauge (value : Z)
| Histogram (samples : list Z).

(** A nil slice is [None]. *)
Record Stats := {
  typ : string;
  labels : gmap string string;
  labelKeys : option (list string);
  labelVals : option (list string);
  registry : gmap string metric
}.

(** A types.Metrics value of the store is a pointer to a [Stats]: the
    address, which is the identity of the instance, and the struct it points
    to. *)
Record Metrics := {
  ptr : nat;
  pointee : Stats
}.

Definition Type_ (m : Metrics) : string := typ (pointee m).
Definition Labels (m : Metrics) : gmap string string := labels (pointee m).

(** The store; [next_ptr] is the address the next allocation gets. *)
Record store := {
  metrics : list Metrics;
  next_ptr : nat
}.

Definition mapEqual (x y : gmap string string) : bool :=
  if decide (size x <> size y) then false
  else forallb (fun '(k, xv) =>
                  match y !! k with
                  | Some yv => bool_decide (yv = xv)
                  | None => false
                  end) (map_to_list x).

(** The "check existence" loop of NewStats. *)
Fixpoint findExisting (t : string) (ls : gmap string string) (ms : list Metrics)
    : option Metrics :=
  match ms with
  | [] => None
  | metric :: ms' =>
      if bool_decide (Type_ metric = t) && mapEqual (Labels metric) ls
      then Some metric
      else findExisting t ls ms'
  end.

Definition NewStats (t : string) (ls : gmap string string) (defaultStore : store)
    : option Metrics * option error * store :=
  if decide (maxLabelCount < size ls)%nat then
    (None, Some errLabelCountExceeded, defaultStore)
  else
    match findExisting t ls (metrics defaultStore) with
    | Some metric => (Some metric, None, defaultStore)
    | None =>
        let stats :=
          {| ptr := next_ptr defaultStore;
             pointee := {| typ := t; labels := ls; labelKeys := None;
                           labelVals := None; registry := ∅ |} |} in
        (Some stats, None,
         {| metrics := metrics defaultStore ++ [stats];
            next_ptr := S (next_ptr defaultStore) |})
    end.

Definition GetAll (defaultStore : store) : list Metrics := metrics defaultStore.

(** Stats.UnregisterAll empties the registry of the instance. *)
Definition UnregisterAll (s : Stats) : Stats :=
  {| typ := typ s; labels := labels s; labelKeys := labelKeys s;
     labelVals := labelVals s; registry := ∅ |}.

(** ResetAll: the store afterwards, and the instances it held as the call
    leaves them (whoever still points to one sees its registry empty). *)
Definition ResetAll (defaultStore : store) : store * list Metrics :=
  ({| metrics := []; next_ptr := next_ptr defaultStore |},
   (fun m => {| ptr := ptr m; pointee := UnregisterAll (pointee m) |})
     <$> metrics defaultStore).

Section WithSort.
(** sort.Strings, by what it returns. *)
Variable sortStrings : list string -> list string.

(** Stats.SortedLabels.  The keys are collected by ranging over the map, in
    whatever order the range takes them, before they are sorted; an absent
    key reads as the empty string. *)
Definition SortedLabels (s : Stats) : list string * list string :=
  match labelKeys s, labelVals s with
  | Some ks, Some vs => (ks, vs)
  | _, _ =>
      let keys := sortStrings (fst <$> map_to_list (labels s)) in
      let values := (fun k => default ""%string (labels s !! k)) <$> keys in
      (keys, values)
  end.

End WithSort.

(** What the store is meant to be: addresses below the next one to be handed
    out and all different, no two instances with the same type and label
    set, no instance over the label cap. *)
Definition wellFormed (st : store) : Prop :=
  (forall m, m ∈ metrics st -> (ptr m < next_ptr st)%nat)
  /\ NoDup (ptr <$> metrics st)
  /\ NoDup ((fun m => (Type_ m, Labels m)) <$> metrics st)
  /\ (forall m, m ∈ metrics st -> (size (Labels m) <= maxLabelCount)%nat).

End stats.

(** ** Package sofarpc: the reusable timer

    The timer with the goroutines around it, as a transition system.  A call
    of start, stop or close by the owner of the timer is one step; the
    goroutine spawned by start takes one step per statement (the select, the
    return of the callback, each of the three deferred statements); time
    passes in [Elapse] steps.  An execution is the list of its steps. *)

Module sofarpc.

(** A time.Timer of the runtime: [remaining = Some d] while it is active and
    due in [d] nanoseconds; [C] counts the values waiting in its channel,
    which has room for one.  Its Stop and Reset ([timerStop], [timerReset])
    do not drain the channel. *)
Record runtimeTimer := {
  remaining : option Z;
  C : nat
}.

Definition NewTimer (d : Z) : runtimeTimer := {| remaining := Some d; C := 0 |}.
Definition timerReset (d : Z) (rt : runtimeTimer) : runtimeTimer :=
  {| remaining := Some d; C := C rt |}.
Definition timerStop (rt : runtimeTimer) : runtimeTimer :=
  {| remaining := None; C := C rt |}.
Definition advance (d : Z) (rt : runtimeTimer) : runtimeTimer :=
  match remaining rt with
  | Some r => if decide (r <= d)
              then {| remaining := None; C := Nat.min 1 (S (C rt)) |}
              else {| remaining := Some (r - d); C := C rt |}
  | None => rt
  end.

(** [stopChan]: a channel of capacity 1. *)
Record chan := {
  buffered : nat;
  closed : bool
}.

Record timer := {
  interval : Z;
  innerTimer : option runtimeTimer;
  stopped : Z;
  started : Z;
  stopChan : chan
}.

(** Where the goroutine spawned by [start] stands. *)
Inductive worker :=
| AtSelect
| InCallback
| DeferStop
| DeferStoreStarted
| DeferStoreStopped.

(** The timer, the goroutines [start] has spawned that have not returned yet
    and the number of times the callback has been invoked. *)
Record system := {
  tm : timer;
  workers : list worker;
  fired : nat
}.

Inductive outcome :=
| Done (s : system)
| Blocked
| Panic.

Definition newTimer : system :=
  {| tm := {| interval := 0; innerTimer := None; stopped := 0; started := 0;
              stopChan := {| buffered := 0; closed := false |} |};
     workers := []; fired := 0 |}.

Definition set_tm (f : timer -> timer) (s : system) : system :=
  {| tm := f (tm s); workers := workers s; fired := fired s |}.
Definition set_innerTimer v (t : timer) : timer :=
  {| interval := interval t; innerTimer := v; stopped := stopped t;
     started := started t; stopChan := stopChan t |}.
Definition set_stopped v (t : timer) : timer :=
  {| interval := interval t; innerTimer := innerTimer t; stopped := v;
     started := started t; stopChan := stopChan t |}.
Definition set_started v (t : timer) : timer :=
  {| interval := interval t; innerTimer := innerTimer t; stopped := stopped t;
     started := v; stopChan := stopChan t |}.
Definition set_stopChan v (t : timer) : timer :=
  {| interval := interval t; innerTimer := innerTimer t; stopped := stopped t;
     started := started t; stopChan := v |}.
Definition set_workers ws (s : system) : system :=
  {| tm := tm s; workers := ws; fired := fired s |}.

(** timer.start, as far as the calling goroutine runs it. *)
Definition start (d : Z) (s : system) : outcome :=
  if decide (started (tm s) = 0) then
    let s := set_tm (set_started 1) s in
    let s := set_tm (fun t =>
               set_innerTimer
                 (match innerTimer t with
                  | None => Some (NewTimer d)
                  | Some rt => Some (timerReset d rt)
                  end) t) s in
    Done (set_workers (workers s ++ [AtSelect]) s)
  else Done s.

(** timer.stop: the send blocks while the channel is full. *)
Definition stop (s : system) : outcome :=
  if decide (stopped (tm s) = 0) then
    let s := set_tm (set_stopped 1) s in
    if closed (stopChan (tm s)) then Panic
    else if decide (buffered (stopChan (tm s)) < 1)%nat then
      Done (set_tm (set_stopChan {| buffered := S (buffered (stopChan (tm s)));
                                    closed := false |}) s)
    else Blocked
  else Done s.

Definition close (s : system) : outcome :=
  if closed (stopChan (tm s)) then Panic
  else Done (set_tm (set_stopChan {| buffered := buffered (stopChan (tm s));
                                     closed := true |}) s).

Definition timerReady (t : timer) : bool :=
  match innerTimer t with
  | Some rt => bool_decide (0 < C rt)%nat
  | None => false
  end.
Definition stopReady (t : timer) : bool :=
  bool_decide (0 < buffered (stopChan t))%nat || closed (stopChan t).

Definition recvTimer (t : timer) : timer :=
  set_innerTimer (match innerTimer t with
                  | Some rt => Some {| remaining := remaining rt; C := pred (C rt) |}
                  | None => None
                  end) t.
Definition recvStop (t : timer) : timer :=
  set_stopChan {| buffered := pred (buffered (stopChan t));
                  closed := closed (stopChan t) |} t.

(** One step of the goroutine spawned by [start].  In the select, when both
    channels are ready the runtime picks one of them: [pickTimer] is that
    pick.  The result is the goroutine afterwards, [None] once it has
    returned. *)
Definition workerStep (pickTimer : bool) (w : worker) (s : system)
    : option (option worker * system) :=
  match w with
  | AtSelect =>
      match timerReady (tm s), stopReady (tm s) with
      | false, false => None
      | true, false =>
          Some (Some InCallback,
                {| tm := recvTimer (tm s); workers := workers s; fired := S (fired s) |})
      | false, true => Some (Some DeferStop, set_tm recvStop s)
      | true, true =>
          if pickTimer
          then Some (Some InCallback,
                     {| tm := recvTimer (tm s); workers := workers s;
                        fired := S (fired s) |})
          else Some (Some DeferStop, set_tm recvStop s)
      end
  | InCallback => Some (Some DeferStop, s)
  | DeferStop =>
      Some (Some DeferStoreStarted,
            set_tm (fun t => set_innerTimer (timerStop <$> innerTimer t) t) s)
  | DeferStoreStarted => Some (Some DeferStoreStopped, set_tm (set_started 0) s)
  | DeferStoreStopped => Some (None, set_tm (set_stopped 0) s)
  end.

Inductive action :=
| CallStart (d : Z)
| CallStop
| CallClose
| Elapse (d : Z)
| Sched (i : nat) (pickTimer : bool).

Definition exec (a : action) (s : system) : outcome :=
  match a with
  | CallStart d => start d s
  | CallStop => stop s
  | CallClose => close s
  | Elapse d => Done (set_tm (fun t => set_innerTimer (advance d <$> innerTimer t) t) s)
  | Sched i pickTimer =>
      match workers s !! i with
      | None => Blocked
      | Some w =>
          match workerStep pickTimer w s with
          | None => Blocked
          | Some (Some w', s') => Done (set_workers (<[i := w']> (workers s')) s')
          | Some (None, s') => Done (set_workers (delete i (workers s')) s')
          end
      end
  end.

Fixpoint run (acts : list action) (s : system) : outcome :=
  match acts with
  | [] => Done s
  | a :: acts' =>
      match exec a s with
      | Done s' => run acts' s'
      | o => o
      end
  end.

(** Not armed: no goroutine of [start] is alive and [started] is clear. *)
Definition idle (s : system) : Prop :=
  workers s = [] /\ started (tm s) = 0.

(** The state a timer is left in by a goroutine of [start] that has
    returned with nothing pending: not started, not stopped, the runtime
    timer inactive, [stopChan] empty. *)
Definition rested (calls : nat) : system :=
  {| tm := {| interval := 0;
              innerTimer := Some {| remaining := None; C := 0 |};
              stopped := 0; started := 0;
              stopChan := {| buffered := 0; closed := false |} |};
     workers := []; fired := calls |}.

(** The same with a value left in [stopChan]. *)
Definition restedWithToken (calls : nat) : system :=
  {| tm := {| interval := 0;
              innerTimer := Some {| remaining := None; C := 0 |};
              stopped := 0; started := 0;
              stopChan := {| buffered := 1; closed := false |} |};
     workers := []; fired := calls |}.

(** A fresh timer after [stop]. *)
Definition stoppedFresh : system :=
  {| tm := {| interval := 0; innerTimer := None; stopped := 1; started := 0;
              stopChan := {| buffered := 1; closed := false |} |};
     workers := []; fired := 0 |}.

(** Counting the goroutines of [start] by where they stand. *)
Fixpoint countIf (p : worker -> bool) (ws : list worker) : nat :=
  match ws with
  | [] => 0
  | w :: ws' => ((if p w then 1 else 0) + countIf p ws')%nat
  end.

(** A goroutine that has not yet cleared [started]. *)
Definition live (w : worker) : bool :=
  match w with
  | DeferStoreStopped => false
  | _ => true
  end.

Definition inCallback (w : worker) : bool :=
  match w with
  | InCallback => true
  | _ => false
  end.

Definition atSelect (w : worker) : bool :=
  match w with
  | AtSelect => true
  | _ => false
  end.

(** [started] is set exactly while one goroutine of [start] has not cleared
    it, and there is never more than one. *)
Definition held (s : system) : Prop :=
  (started (tm s) = 0 /\ countIf live (workers s) = 0%nat)
  \/ (started (tm s) = 1 /\ countIf live (workers s) = 1%nat).

(** The calls of [start] in an execution. *)
Fixpoint startCalls (acts : list action) : nat :=
  match acts with
  | [] => 0
  | CallStart _ :: acts' => S (startCalls acts')
  | _ :: acts' => startCalls acts'
  end.

End sofarpc.

(** ** Package router *)

Module router.

Record HeaderMatcher := {
  Name : string;
  Value : string;
  Regex : bool
}.

Record lowerCaseString := { str : string }.

Section WithRegexp.
(** regexp.Compile gives a pattern and a nil error ([inl]), or a nil
    pattern and an error ([inr]). *)
Context {Regexp : Type} (Compile : string -> Regexp + string).

Record HeaderData := {
  hdName : lowerCaseString;
  hdValue : string;
  IsRegex : bool;
  RegexPattern : option Regexp
}.

Definition set_RegexPattern (p : option Regexp) (d : HeaderData) : HeaderData :=
  {| hdName := hdName d; hdValue := hdValue d; IsRegex := IsRegex d;
     RegexPattern := p |}.

(** The struct the loop builds for a matcher, before any pattern is
    stored in it. *)
Definition newHeaderData (header : HeaderMatcher) : HeaderData :=
  {| hdName := {| str := Name header |};
     hdValue := Value header;
     IsRegex := Regex header;
     RegexPattern := None |}.

(** The result and the lines written to the log. *)
Definition getRouterHeaders (headers : list HeaderMatcher)
    : list HeaderData * list string :=
  foldl (fun '(headerDatas, log) header =>
           let headerData := newHeaderData header in
           if Regex header then
             match Compile (Name header) with
             | inr err =>
                 (headerDatas ++ [set_RegexPattern None headerData], log)
             | inl pattern =>
                 (headerDatas, log ++ ["getRouterHeaders compile error"%string])
             end
           else (headerDatas ++ [headerData], log))
        ([], []) headers.

Definition GetRouterHeaders (headers : list HeaderMatcher) :=
  getRouterHeaders headers.

(** What one round of the loop adds to the result. *)
Definition kept (header : HeaderMatcher) : option HeaderData :=
  if Regex header then
    match Compile (Name header) with
    | inr _ => Some (newHeaderData header)
    | inl _ => None
    end
  else Some (newHeaderData header).

(** Whether the round logs the compile error. *)
Definition logged (header : HeaderMatcher) : Prop :=
  Regex header = true /\ exists pattern, Compile (Name header) = inl pattern.

#[global] Instance logged_dec header : Decision (logged header).
Proof.
  unfold logged. destruct (Regex header).
  - destruct (Compile (Name header)) as [p|e].
    + left. eauto.
    + right. intros [_ [p F]]. discriminate F.
  - right. intros [F _]. discriminate F.
Defined.

End WithRegexp.

(** The sum of two uint32. *)
Definition uint32_add (a b : Z) : Z := (a + b) mod 2 ^ 32.

(** v2.ClusterWeight and v2.WeightedCluster, the fields utility.go reads;
    [cwName] is the field Name (the name is taken by [HeaderMatcher]). *)
Record ClusterWeight := {
  cwName : string;
  Weight : Z;
  MetadataMatch : gmap string string
}.

Record WeightedCluster := { Cluster : ClusterWeight }.

Section WithMetadata.
(** types.GenerateHashedValue and the router's NewMetadataMatchCriteriaImpl
    are defined elsewhere. *)
Context {HashedValue MetadataMatchCriteria : Type}.
Context (GenerateHashedValue : string -> HashedValue).
Context (NewMetadataMatchCriteriaImpl : gmap string string -> MetadataMatchCriteria).

Definition getClusterMosnLBMetaDataMap (metadata : gmap string string)
    : gmap string HashedValue :=
  map_fold (fun key value (metadataMap : gmap string HashedValue) =>
              <[key := GenerateHashedValue value]> metadataMap)
           ∅ metadata.

Definition GetClusterMosnLBMetaDataMap (metadata : gmap string string) :=
  getClusterMosnLBMetaDataMap metadata.

Record weightedClusterEntry := {
  clusterName : string;
  clusterWeight : Z;
  clusterMetadataMatchCriteria : MetadataMatchCriteria
}.

(** The entry the loop stores for a weighted cluster. *)
Definition entryOf (weightedCluster : WeightedCluster) : weightedClusterEntry :=
  {| clusterName := cwName (Cluster weightedCluster);
     clusterWeight := Weight (Cluster weightedCluster);
     clusterMetadataMatchCriteria :=
       NewMetadataMatchCriteriaImpl (MetadataMatch (Cluster weightedCluster)) |}.

Definition getWeightedClusterEntry (weightedClusters : list WeightedCluster)
    : gmap string weightedClusterEntry * Z :=
  foldl (fun '(weightedClusterEntries, totalWeight) weightedCluster =>
           let subsetLBMetaData := MetadataMatch (Cluster weightedCluster) in
           let totalWeight :=
             uint32_add totalWeight (Weight (Cluster weightedCluster)) in
           (<[cwName (Cluster weightedCluster) :=
                {| clusterName := cwName (Cluster weightedCluster);
                   clusterWeight := Weight (Cluster weightedCluster);
                   clusterMetadataMatchCriteria :=
                     NewMetadataMatchCriteriaImpl subsetLBMetaData |}]>
              weightedClusterEntries,
            totalWeight))
        (∅, 0) weightedClusters.

(** The weights of a list of weighted clusters, added up as integers. *)
Definition sumWeights (weightedClusters : list WeightedCluster) : Z :=
  foldr (fun wc acc => Weight (Cluster wc) + acc) 0 weightedClusters.

End WithMetadata.

End router.

(** ** Concrete collaborators and states, for running the definitions *)

Module Demo.
Import healthcheck.

(** Hosts are their addresses; sessions are numbered; a factory is the
    number of sessions it has been asked for, and its first request fails;
    the generator is a counter. *)
Definition collaborators : Collaborators :=
  {| Host := string;
     AddressString := fun h => h;
     Session := nat;
     SessionConfig := unit;
     HealthCheckSessionFactory := nat;
     NewSession := fun f _ _ =>
                     (match f with O => None | S _ => Some f end, S f);
     TCPDialSessionFactory := 1%nat;
     checker := string * nat;
     newChecker := fun s h => (h, s);
     HealthCheckCb := string;
     Rand := Z;
     NewRand := fun seed => seed;
     Int63n := fun r n => (r mod n, r + 1);
     Int63n_range := fun r n H => Z.mod_pos_bound r n H |}.

Definition zeroStats : healthCheckStats :=
  {| healthy := 0; success := 0; failure := 0; activeFailure := 0;
     networkFailure := 0; passiveFailure := 0 |}.

Definition clusterOf (hs : list string) : @Cluster collaborators :=
  @Build_Cluster collaborators
    (@Build_PrioritySet collaborators [@Build_HostSet collaborators hs]).

(** A checker for a cluster of [hs] whose session factory is in state [f]. *)
Definition checkerFor (hs : list string) (f : nat) (base jitter : Z)
    : @healthChecker collaborators :=
  @Build_healthChecker collaborators
    tt (clusterOf hs) f ∅ 0 zeroStats
    DefaultTimeout base jitter 2 3 1 ["lb"; "log"]%string.

Definition fresh (hs : list string) (f : nat) : @World collaborators :=
  @Build_World collaborators (checkerFor hs f DefaultInterval 0) [].

(** One host, checked. *)
Definition oneChecked : @World collaborators :=
  Start (fresh ["10.0.0.1:80"%string] 1).

Definition config (proto : string) : @HealthCheck collaborators :=
  @Build_HealthCheck collaborators
    proto 0 0 0 2 3 ["lb"; "unknown"]%string tt "svc".

(** The same collaborators with a factory that never answers nil. *)
Definition reliable : Collaborators :=
  {| Host := string;
     AddressString := fun h => h;
     Session := nat;
     SessionConfig := unit;
     HealthCheckSessionFactory := nat;
     NewSession := fun f _ _ => (Some f, S f);
     TCPDialSessionFactory := 1%nat;
     checker := string * nat;
     newChecker := fun s h => (h, s);
     HealthCheckCb := string;
     Rand := Z;
     NewRand := fun seed => seed;
     Int63n := fun r n => (r mod n, r + 1);
     Int63n_range := fun r n H => Z.mod_pos_bound r n H |}.

(** A world of [reliable]: a cluster of [hs], nothing checked yet. *)
Definition reliableFresh (hs : list string) : @World reliable :=
  @Build_World reliable
    (@Build_healthChecker reliable
       tt (@Build_Cluster reliable
             (@Build_PrioritySet reliable [@Build_HostSet reliable hs]))
       0%nat ∅ 0 zeroStats DefaultTimeout DefaultInterval 0 2 3 1 [])
    [].

(** Eleven labels, one more than a label set may have, and two. *)
Definition labels11 : gmap string string :=
  list_to_map
    [("k00", "v"); ("k01", "v"); ("k02", "v"); ("k03", "v"); ("k04", "v");
     ("k05", "v"); ("k06", "v"); ("k07", "v"); ("k08", "v"); ("k09", "v");
     ("k10", "v")]%string.

Definition labels2 : gmap string string :=
  list_to_map [("cluster", "c1"); ("host", "h1")]%string.

(** A sort for the examples: merge sort by the order of [String.leb]. *)
Definition sortStrings : list string -> list string :=
  @merge_sort string (fun a b => String.leb a b = true)
    (fun a b => decide (String.leb a b = true)).

Definition emptyStore : stats.store :=
  {| stats.metrics := []; stats.next_ptr := 0 |}.

(** The pattern language of the router examples: a name compiles unless it
    is the lone opening bracket. *)
Definition Compile (s : string) : string + string :=
  if bool_decide (s = "["%string) then inr "missing closing ]"%string else inl s.

End Demo.

(** * Properties *)

(** ** Int64 *)

Module Int64Facts.
Import Int64.

Lemma wrap_in_range z : in_range (wrap z).
Proof.
  unfold in_range, wrap, min_signed, max_signed, modulus.
  pose proof (Z.mod_pos_bound (z + 2 ^ 63) (2 ^ 64)). lia.
Qed.

Lemma wrap_id z : in_range z -> wrap z = z.
Proof.
  unfold in_range, wrap, min_signed, max_signed, modulus. intros Hz.
  rewrite Z.mod_small; lia.
Qed.

Lemma succ_neq x : add x 1 <> x.
Proof.
  unfold add. intros E.
  assert (R : in_range x) by (rewrite <- E; apply wrap_in_range).
  revert E. unfold wrap, modulus. unfold in_range, min_signed, max_signed in R.
  destruct (Z.eq_dec x (2 ^ 63 - 1)) as [->|Hx].
  - vm_compute. discriminate.
  - rewrite Z.mod_small; lia.
Qed.

Lemma pred_neq x : sub x 1 <> x.
Proof.
  unfold sub. intros E.
  assert (R : in_range x) by (rewrite <- E; apply wrap_in_range).
  revert E. unfold wrap, modulus. unfold in_range, min_signed, max_signed in R.
  destruct (Z.eq_dec x (- 2 ^ 63)) as [->|Hx].
  - vm_compute. discriminate.
  - rewrite Z.mod_small; lia.
Qed.

(** Repeated decrements are one subtraction, as long as the counter was an
    int64 to begin with. *)
Lemma iter_pred n x :
  in_range x -> Nat.iter n (fun y => sub y 1) x = wrap (x - Z.of_nat n).
Proof.
  intros Hx. induction n as [|n IH].
  - simpl. rewrite Z.sub_0_r. symmetry. by apply wrap_id.
  - rewrite Nat.iter_succ, IH. unfold sub, wrap, modulus.
    replace ((x - Z.of_nat n + 2 ^ 63) mod 2 ^ 64 - 2 ^ 63 - 1 + 2 ^ 63)
      with ((x - Z.of_nat n + 2 ^ 63) mod 2 ^ 64 + (- 1)) by lia.
    rewrite Zplus_mod_idemp_l. f_equal. f_equal. lia.
Qed.

End Int64Facts.

(** ** The orchestrator *)

Module HealthcheckProps.
Import healthcheck.

Section Props.
Context `{C : Collaborators}.
Implicit Types (w : World) (h host : Host) (hc : healthChecker).
Implicit Types (m : gmap string checker) (l : list Host).

Local Abbreviation addr := AddressString.

(** *** Walking a list of hosts *)

Lemma foldl_hostSets (f : World -> Host -> World) (sets : list HostSet) w :
  foldl (fun w hostSet => foldl f w (Hosts hostSet)) w sets
  = foldl f w (concat (Hosts <$> sets)).
Proof.
  revert w. induction sets as [|s sets IH]; intros w; [done|].
  simpl. rewrite foldl_app. apply IH.
Qed.

(** *** stopCheck *)

Lemma stopCheck_checkers h w :
  checkers (self (stopCheck h w)) = delete (addr h) (checkers (self w)).
Proof.
  unfold stopCheck. destruct (checkers (self w) !! addr h) eqn:E; [done|].
  by rewrite delete_id.
Qed.

Lemma stopCheck_frame h w :
  cluster (self (stopCheck h w)) = cluster (self w)
  /\ stats (self (stopCheck h w)) = stats (self w)
  /\ sessionFactory (self (stopCheck h w)) = sessionFactory (self w)
  /\ hostCheckCallbacks (self (stopCheck h w)) = hostCheckCallbacks (self w).
Proof. unfold stopCheck. by destruct (checkers (self w) !! addr h). Qed.

Lemma stopCheck_localProcessHealthy h w :
  localProcessHealthy (self (stopCheck h w))
  = match checkers (self w) !! addr h with
    | Some _ => Int64.sub (localProcessHealthy (self w)) 1
    | None => localProcessHealthy (self w)
    end.
Proof. unfold stopCheck. by destruct (checkers (self w) !! addr h). Qed.

Lemma stopCheck_effects h w :
  effects (stopCheck h w)
  = effects w ++
    match checkers (self w) !! addr h with
    | Some c => [CheckerStop c;
                 LogInfof ("remove a health check session for " +:+ addr h)]
    | None => []
    end.
Proof.
  unfold stopCheck. destruct (checkers (self w) !! addr h); [done|].
  by rewrite app_nil_r.
Qed.

Lemma lookup_deletes l m a :
  deletes l m !! a = if decide (a ∈ addr <$> l) then None else m !! a.
Proof.
  unfold deletes. revert m. induction l as [|h l IH]; intros m; csimpl.
  - destruct (decide (a ∈ [])) as [H|H]; [|done].
    by apply elem_of_nil in H.
  - rewrite IH, lookup_delete.
    destruct (decide (a ∈ addr <$> l)) as [Hin|Hnin].
    + rewrite decide_True; [done|]. apply elem_of_cons. by right.
    + destruct (decide (addr h = a)) as [<-|Hne].
      * rewrite decide_True; [done|]. apply elem_of_cons. by left.
      * rewrite decide_False; [done|].
        intros [->|?]%elem_of_cons; congruence.
Qed.

Lemma size_deletes l m : (size (deletes l m) <= size m)%nat.
Proof.
  unfold deletes. revert m. induction l as [|h l IH]; intros m; simpl; [done|].
  etrans; [apply IH|]. rewrite map_size_delete.
  destruct (m !! addr h); simpl; lia.
Qed.

Lemma stopChecks_checkers l w :
  checkers (self (foldl (fun w h => stopCheck h w) w l))
  = deletes l (checkers (self w)).
Proof.
  unfold deletes. revert w. induction l as [|h l IH]; intros w; simpl; [done|].
  by rewrite IH, stopCheck_checkers.
Qed.

Lemma stopChecks_frame l w :
  cluster (self (foldl (fun w h => stopCheck h w) w l)) = cluster (self w)
  /\ stats (self (foldl (fun w h => stopCheck h w) w l)) = stats (self w).
Proof.
  revert w. induction l as [|h l IH]; intros w; simpl; [done|].
  destruct (IH (stopCheck h w)) as [-> ->].
  by destruct (stopCheck_frame h w) as (-> & -> & _).
Qed.

Lemma decrements_S n x : decrements (S n) x = decrements n (Int64.sub x 1).
Proof. unfold decrements. by rewrite Nat.iter_succ_r. Qed.

Lemma stopChecks_localProcessHealthy l w :
  localProcessHealthy (self (foldl (fun w h => stopCheck h w) w l))
  = decrements (size (checkers (self w))
                - size (deletes l (checkers (self w))))%nat
               (localProcessHealthy (self w)).
Proof.
  revert w. induction l as [|h l IH]; intros w; simpl.
  - by rewrite Nat.sub_diag.
  - rewrite IH, stopCheck_checkers, stopCheck_localProcessHealthy.
    change (foldl _ (delete (addr h) ?m) l) with (deletes l (delete (addr h) m)).
    pose proof (size_deletes l (delete (addr h) (checkers (self w)))) as Hle.
    rewrite map_size_delete in *.
    destruct (checkers (self w) !! addr h) as [c|] eqn:E; simpl in *; [|done].
    assert (size (checkers (self w)) ≠ 0%nat) as Hne.
    { intros Hz. apply map_size_empty_iff in Hz. rewrite Hz in E.
      by rewrite lookup_empty in E. }
    rewrite <- decrements_S. f_equal. lia.
Qed.

Lemma stopChecks_effects_mono l w e :
  e ∈ effects w -> e ∈ effects (foldl (fun w h => stopCheck h w) w l).
Proof.
  revert w. induction l as [|h l IH]; intros w He; simpl; [done|].
  apply IH. rewrite stopCheck_effects. apply elem_of_app. by left.
Qed.

Lemma stopChecks_stops l w a c :
  a ∈ addr <$> l -> checkers (self w) !! a = Some c ->
  CheckerStop c ∈ effects (foldl (fun w h => stopCheck h w) w l).
Proof.
  revert w. induction l as [|h l IH]; intros w Ha Hc; simpl.
  - by apply elem_of_nil in Ha.
  - destruct (decide (a = addr h)) as [->|Hne].
    + apply stopChecks_effects_mono. rewrite stopCheck_effects, Hc.
      apply elem_of_app. right. apply elem_of_cons. by left.
    + apply IH.
      * rewrite fmap_cons in Ha. by apply elem_of_cons in Ha as [?|?].
      * by rewrite stopCheck_checkers, lookup_delete_ne.
Qed.

(** C1, as the code has it.  [Stop] removes the checker of every host of
    the cluster and stops it, leaves every other checker and the stats
    alone, and decrements [localProcessHealthy] once per checker it
    removes: the counter is unchanged only when no host of the cluster had
    a checker. *)
Theorem Stop_removes_checkers_and_decrements w :
  let w' := Stop w in
  let removed := (size (checkers (self w)) - size (checkers (self w')))%nat in
  (forall a, checkers (self w') !! a
             = if decide (a ∈ addr <$> clusterHosts (self w)) then None
               else checkers (self w) !! a)
  /\ (forall a c, a ∈ addr <$> clusterHosts (self w) ->
                  checkers (self w) !! a = Some c ->
                  CheckerStop c ∈ effects w')
  /\ stats (self w') = stats (self w)
  /\ localProcessHealthy (self w')
     = decrements removed (localProcessHealthy (self w))
  /\ (Int64.in_range (localProcessHealthy (self w)) ->
      localProcessHealthy (self w')
      = Int64.wrap (localProcessHealthy (self w) - Z.of_nat removed)).
Proof.
  intros w' removed. subst w' removed. unfold Stop, clusterHosts.
  rewrite foldl_hostSets.
  set (l := concat _).
  assert (localProcessHealthy (self (foldl (fun w h => stopCheck h w) w l))
          = decrements (size (checkers (self w))
                        - size (checkers (self (foldl (fun w h => stopCheck h w) w l))))%nat
              (localProcessHealthy (self w))) as Hlph.
  { rewrite stopChecks_localProcessHealthy. by rewrite stopChecks_checkers. }
  split_and!.
  - intros a. rewrite stopChecks_checkers. apply lookup_deletes.
  - intros a c. apply stopChecks_stops.
  - apply stopChecks_frame.
  - done.
  - intros Hr. rewrite Hlph. by apply Int64Facts.iter_pred.
Qed.


(** *** startCheck *)

Lemma startCheck_present h w :
  is_Some (checkers (self w) !! addr h) -> startCheck h w = w.
Proof. intros [c Hc]. unfold startCheck. by rewrite Hc. Qed.

Lemma startCheck_keeps h w a :
  is_Some (checkers (self w) !! a) ->
  is_Some (checkers (self (startCheck h w)) !! a).
Proof.
  intros Ha. unfold startCheck.
  destruct (checkers (self w) !! addr h) eqn:E; [done|].
  destruct (NewSession _ _ _) as [[s|] f']; simpl; [|done].
  rewrite lookup_insert_is_Some. destruct (decide (addr h = a)); auto.
Qed.

Lemma startChecks_keep l w a :
  is_Some (checkers (self w) !! a) ->
  is_Some (checkers (self (foldl (fun w h => startCheck h w) w l)) !! a).
Proof.
  revert w. induction l as [|h l IH]; intros w Ha; simpl; [done|].
  by apply IH, startCheck_keeps.
Qed.

Lemma OnClusterMemberUpdate_single h w :
  OnClusterMemberUpdate [h] [] w = on_self publishHealthy (startCheck h w).
Proof. done. Qed.

(** C2.  A host whose address already has a checker: [startCheck] changes
    nothing at all (no session is asked for, no checker is created or
    started, the counter stays), so the host can be dropped from
    [hostsAdd] of any membership update without changing its result, and
    an update that only re-adds it leaves the checkers, the counter and the
    effect trace as they were. *)
Theorem startCheck_existing_host_untouched h w :
  is_Some (checkers (self w) !! AddressString h) ->
  startCheck h w = w
  /\ (forall pre post hostsDel,
        OnClusterMemberUpdate (pre ++ h :: post) hostsDel w
        = OnClusterMemberUpdate (pre ++ post) hostsDel w)
  /\ checkers (self (OnClusterMemberUpdate [h] [] w)) = checkers (self w)
  /\ localProcessHealthy (self (OnClusterMemberUpdate [h] [] w))
     = localProcessHealthy (self w)
  /\ effects (OnClusterMemberUpdate [h] [] w) = effects w.
Proof.
  intros Hh. split_and!.
  - by apply startCheck_present.
  - intros pre post hostsDel. unfold OnClusterMemberUpdate.
    rewrite !foldl_app. simpl.
    rewrite (startCheck_present h); [done|]. by apply startChecks_keep.
  - rewrite OnClusterMemberUpdate_single, startCheck_present; done.
  - rewrite OnClusterMemberUpdate_single, startCheck_present; done.
  - rewrite OnClusterMemberUpdate_single, startCheck_present; done.
Qed.

(** C5.  [NewSession] answers nil for a host without a checker: the error
    is logged and nothing else happens to the orchestrator (no entry for
    the host, same counter, same stats; only the factory is the one the
    call left behind).  A membership update that re-adds the host asks
    the factory again: with a session it creates and starts the checker
    and counts the host, with nil it logs again. *)
Theorem startCheck_nil_session_leaves_host_unchecked h w f' :
  checkers (self w) !! AddressString h = None ->
  NewSession (sessionFactory (self w)) (sessionConfig (self w)) h = (None, f') ->
  let w' := startCheck h w in
  let line := LogErrorf ("Create Health Check Session Error, Remote Address = "
                         +:+ AddressString h) in
  self w' = set_sessionFactory f' (self w)
  /\ checkers (self w') = checkers (self w)
  /\ localProcessHealthy (self w') = localProcessHealthy (self w)
  /\ stats (self w') = stats (self w)
  /\ effects w' = effects w ++ [line]
  /\ (forall s f'',
        NewSession f' (sessionConfig (self w)) h = (Some s, f'') ->
        let w'' := OnClusterMemberUpdate [h] [] w' in
        checkers (self w'') = <[AddressString h := newChecker s h]> (checkers (self w))
        /\ localProcessHealthy (self w'')
           = Int64.add (localProcessHealthy (self w)) 1
        /\ effects w''
           = effects w' ++
             [GoStart (newChecker s h);
              LogInfof ("create a health check session for " +:+ AddressString h)])
  /\ (forall f'',
        NewSession f' (sessionConfig (self w)) h = (None, f'') ->
        let w'' := OnClusterMemberUpdate [h] [] w' in
        checkers (self w'') = checkers (self w)
        /\ localProcessHealthy (self w'') = localProcessHealthy (self w)
        /\ effects w'' = effects w' ++ [line]).
Proof.
  intros Hnone Hnil w' line.
  assert (w' = emit [line] (on_self (set_sessionFactory f') w)) as Hw'.
  { subst w'. unfold startCheck. by rewrite Hnone, Hnil. }
  split_and!; try (rewrite Hw'; done).
  - intros s f'' Hs w''. subst w''.
    rewrite OnClusterMemberUpdate_single. unfold startCheck.
    rewrite Hw'. simpl. rewrite Hnone, Hs. done.
  - intros f'' Hs w''. subst w''.
    rewrite OnClusterMemberUpdate_single. unfold startCheck.
    rewrite Hw'. simpl. rewrite Hnone, Hs. done.
Qed.


(** *** getCheckInterval *)

Lemma getCheckInterval_no_jitter hc :
  intervalJitter hc <= 0 -> getCheckInterval hc = (intervalBase hc, hc).
Proof.
  intros HJ. unfold getCheckInterval. rewrite decide_False; [done|lia].
Qed.

Lemma getCheckInterval_jitter hc :
  0 < intervalJitter hc ->
  exists r, 0 <= r < intervalJitter hc
            /\ fst (getCheckInterval hc) = Int64.add (intervalBase hc) r.
Proof.
  intros HJ. unfold getCheckInterval. rewrite decide_True by lia.
  pose proof (Int63n_range (rander hc) (intervalJitter hc) HJ) as Hr.
  destruct (Int63n (rander hc) (intervalJitter hc)) as [r g]. simpl in *.
  by exists r.
Qed.

(** C3, as the code has it.  Without jitter the interval is
    [intervalBase] exactly.  With jitter [J > 0] the interval is
    [intervalBase] plus a draw from [[0, J)], added as int64: it lies in
    [[intervalBase, intervalBase + J)] whenever that range fits an int64,
    that is when [intervalBase + J - 1] is at most the largest int64. *)
Theorem getCheckInterval_within_jitter hc :
  (intervalJitter hc <= 0 -> getCheckInterval hc = (intervalBase hc, hc))
  /\ (0 < intervalJitter hc ->
      exists r, 0 <= r < intervalJitter hc
                /\ fst (getCheckInterval hc) = Int64.add (intervalBase hc) r)
  /\ (0 < intervalJitter hc ->
      Int64.min_signed <= intervalBase hc ->
      intervalBase hc + intervalJitter hc - 1 <= Int64.max_signed ->
      intervalBase hc <= fst (getCheckInterval hc)
                      < intervalBase hc + intervalJitter hc).
Proof.
  split_and!.
  - apply getCheckInterval_no_jitter.
  - apply getCheckInterval_jitter.
  - intros HJ Hlo Hhi.
    destruct (getCheckInterval_jitter hc HJ) as (r & Hr & ->).
    unfold Int64.add. rewrite Int64Facts.wrap_id; [lia|].
    unfold Int64.in_range. lia.
Qed.

(** *** incHealthy, decHealthy *)

Lemma foldl_emit_callbacks host changed isHealthy (cbs : list HealthCheckCb) w :
  foldl (fun w cb => emit [Callback cb host changed isHealthy] w) w cbs
  = emit ((fun cb => Callback cb host changed isHealthy) <$> cbs) w.
Proof.
  revert w. induction cbs as [|cb cbs IH]; intros w; simpl.
  - unfold emit. rewrite app_nil_r. by destruct w.
  - rewrite IH. unfold emit. simpl. by rewrite <- app_assoc.
Qed.

Lemma runCallbacks_eq host changed isHealthy w :
  runCallbacks host changed isHealthy w
  = emit ((fun cb => Callback cb host changed isHealthy)
            <$> hostCheckCallbacks (self w))
         (on_self publishHealthy w).
Proof. unfold runCallbacks. by rewrite foldl_emit_callbacks. Qed.

(** C8.  [incHealthy] adds one to the success counter, adds one to
    [localProcessHealthy] exactly when [changed], and then invokes every
    registered callback in registration order with (host, changed, true).
    [decHealthy] adds one to the failure counter, subtracts one from
    [localProcessHealthy] exactly when [changed], adds one to the counter
    of the reason and to no other reason counter, and then invokes every
    callback in order with (host, changed, false).  Additions are those
    of an int64. *)
Theorem incHealthy_decHealthy_update_and_notify host reason changed w :
  let hc := self w in
  let wi := incHealthy host changed w in
  let wd := decHealthy host reason changed w in
  (success (stats (self wi)) = Int64.add (success (stats hc)) 1
   /\ failure (stats (self wi)) = failure (stats hc)
   /\ localProcessHealthy (self wi)
      = (if changed then Int64.add (localProcessHealthy hc) 1
         else localProcessHealthy hc)
   /\ (localProcessHealthy (self wi) = Int64.add (localProcessHealthy hc) 1
       <-> changed = true)
   /\ effects wi
      = effects w ++
        ((fun cb => Callback cb host changed true) <$> hostCheckCallbacks hc))
  /\
  (failure (stats (self wd)) = Int64.add (failure (stats hc)) 1
   /\ success (stats (self wd)) = success (stats hc)
   /\ localProcessHealthy (self wd)
      = (if changed then Int64.sub (localProcessHealthy hc) 1
         else localProcessHealthy hc)
   /\ (localProcessHealthy (self wd) = Int64.sub (localProcessHealthy hc) 1
       <-> changed = true)
   /\ activeFailure (stats (self wd))
      = (match reason with
         | FailureActive => Int64.add (activeFailure (stats hc)) 1
         | _ => activeFailure (stats hc)
         end)
   /\ networkFailure (stats (self wd))
      = (match reason with
         | FailureNetwork => Int64.add (networkFailure (stats hc)) 1
         | _ => networkFailure (stats hc)
         end)
   /\ passiveFailure (stats (self wd))
      = (match reason with
         | FailurePassive => Int64.add (passiveFailure (stats hc)) 1
         | _ => passiveFailure (stats hc)
         end)
   /\ effects wd
      = effects w ++
        ((fun cb => Callback cb host changed false) <$> hostCheckCallbacks hc)).
Proof.
  intros hc wi wd. subst hc wi wd. unfold incHealthy, decHealthy.
  rewrite !runCallbacks_eq. split.
  - destruct changed; simpl; split_and!; try done;
      (split; [|done]); intros E; symmetry in E;
      by apply Int64Facts.succ_neq in E.
  - destruct changed, reason; simpl; split_and!; try done;
      (split; [|done]); intros E; symmetry in E;
      by apply Int64Facts.pred_neq in E.
Qed.

(** *** CreateHealthCheck *)

Lemma newHealthChecker_sessionFactory ccbs mk now cfg cl f :
  sessionFactory (newHealthChecker ccbs mk now cfg cl f) = f
  /\ cluster (newHealthChecker ccbs mk now cfg cl f) = cl
  /\ sessionConfig (newHealthChecker ccbs mk now cfg cl f) = cfgSessionConfig cfg
  /\ checkers (newHealthChecker ccbs mk now cfg cl f) = ∅
  /\ localProcessHealthy (newHealthChecker ccbs mk now cfg cl f) = 0.
Proof.
  unfold newHealthChecker.
  match goal with |- context [foldl ?g ?i ?names] =>
    set (step := g); set (hc0 := i);
    assert (forall (l : list string) hc,
              sessionFactory (foldl step hc l) = sessionFactory hc
              /\ cluster (foldl step hc l) = cluster hc
              /\ sessionConfig (foldl step hc l) = sessionConfig hc
              /\ checkers (foldl step hc l) = checkers hc
              /\ localProcessHealthy (foldl step hc l) = localProcessHealthy hc)
      as Hfold
  end.
  { clear. induction l as [|n l IH]; intros hc; simpl; [done|].
    destruct (IH (step hc n)) as (-> & -> & -> & -> & ->).
    unfold step. by destruct (ccbs !! n). }
  apply (Hfold (CommonCallbacks cfg) hc0).
Qed.

(** C9.  [CreateHealthCheck] returns what [newHealthChecker] builds from
    the config, the cluster and a session factory: the one registered
    for the config's protocol when there is one (in particular the one a
    preceding [RegisterSessionFactory] put there), the default
    [TCPDialSessionFactory] when there is none; the checker it returns
    holds that factory. *)
Theorem CreateHealthCheck_selects_session_factory
    (sessionFactories : gmap string HealthCheckSessionFactory)
    ccbs mk now (cfg : HealthCheck) (cl : Cluster) :
  let hc := CreateHealthCheck sessionFactories ccbs mk now cfg cl in
  (sessionFactories !! Protocol cfg = None ->
   hc = newHealthChecker ccbs mk now cfg cl TCPDialSessionFactory
   /\ sessionFactory hc = TCPDialSessionFactory)
  /\ (forall f, sessionFactories !! Protocol cfg = Some f ->
                hc = newHealthChecker ccbs mk now cfg cl f
                /\ sessionFactory hc = f)
  /\ (forall f,
        let hc' := CreateHealthCheck
                     (RegisterSessionFactory (Protocol cfg) f sessionFactories)
                     ccbs mk now cfg cl in
        hc' = newHealthChecker ccbs mk now cfg cl f /\ sessionFactory hc' = f).
Proof.
  intros hc. subst hc. unfold CreateHealthCheck, RegisterSessionFactory.
  split_and!.
  - intros ->. split; [done|]. apply newHealthChecker_sessionFactory.
  - intros f ->. split; [done|]. apply newHealthChecker_sessionFactory.
  - intros f. simpl. rewrite lookup_insert_eq.
    split; [done|]. apply newHealthChecker_sessionFactory.
Qed.

End Props.
End HealthcheckProps.

(** ** The orchestrator on concrete states *)

Module HealthcheckExamples.
Import healthcheck Demo.

(** C1 as stated fails: one host with a checker, [localProcessHealthy] is 1
    before [Stop] and 0 after it. *)
Lemma Stop_changes_localProcessHealthy :
  localProcessHealthy (self oneChecked) = 1
  /\ localProcessHealthy (self (Stop oneChecked)) = 0
  /\ localProcessHealthy (self (Stop oneChecked))
     <> localProcessHealthy (self oneChecked).
Proof. vm_compute. split_and!; [done|done|discriminate]. Qed.

Lemma Stop_removes_checkers_and_decrements_witness :
  Int64.in_range (localProcessHealthy (self oneChecked))
  /\ localProcessHealthy (self (Stop oneChecked))
     = Int64.wrap (localProcessHealthy (self oneChecked)
                   - Z.of_nat (size (checkers (self oneChecked))
                               - size (checkers (self (Stop oneChecked))))).
Proof.
  assert (Int64.in_range (localProcessHealthy (self oneChecked))) as Hr.
  { vm_compute. split; discriminate. }
  split; [exact Hr|].
  apply (HealthcheckProps.Stop_removes_checkers_and_decrements oneChecked).
  exact Hr.
Defined.

Lemma startCheck_existing_host_untouched_witness :
  is_Some (checkers (self oneChecked) !! "10.0.0.1:80"%string)
  /\ @startCheck collaborators "10.0.0.1:80"%string oneChecked = oneChecked.
Proof.
  assert (is_Some (checkers (self oneChecked) !! "10.0.0.1:80"%string)) as Hs.
  { exists ("10.0.0.1:80"%string, 1%nat). vm_compute. reflexivity. }
  split; [exact Hs|].
  apply (@HealthcheckProps.startCheck_existing_host_untouched
           collaborators "10.0.0.1:80"%string oneChecked Hs).
Defined.

Lemma startCheck_nil_session_leaves_host_unchecked_witness :
  let w := fresh ["a"%string] 0 in
  checkers (self w) !! "a"%string = None
  /\ checkers (self (@startCheck collaborators "a"%string w)) = checkers (self w)
  /\ localProcessHealthy (self (@startCheck collaborators "a"%string w))
     = localProcessHealthy (self w).
Proof.
  intros w.
  assert (checkers (self w) !! "a"%string = None) as Hn by reflexivity.
  split; [exact Hn|].
  pose proof (@HealthcheckProps.startCheck_nil_session_leaves_host_unchecked
                collaborators "a"%string w 1%nat Hn eq_refl) as H.
  simpl in H. split; apply H.
Defined.

(** C3 as stated fails: base interval the largest int64, jitter 2, and the
    generator draws 1; the sum wraps to the smallest int64. *)
Lemma getCheckInterval_wraps_around :
  let hc := checkerFor [] 1 Int64.max_signed 2 in
  intervalJitter hc = 2
  /\ fst (Int63n (rander hc) (intervalJitter hc)) = 1
  /\ fst (getCheckInterval hc) = Int64.min_signed
  /\ ~ (intervalBase hc <= fst (getCheckInterval hc)
                        < intervalBase hc + intervalJitter hc).
Proof.
  intros hc. split_and!; [reflexivity|reflexivity|reflexivity|].
  intros [H _]. vm_compute in H. by apply H.
Qed.

Lemma getCheckInterval_within_jitter_witness :
  let hc := checkerFor [] 1 DefaultInterval 1000 in
  intervalBase hc <= fst (getCheckInterval hc)
                  < intervalBase hc + intervalJitter hc.
Proof.
  intros hc.
  apply (@HealthcheckProps.getCheckInterval_within_jitter collaborators hc);
    vm_compute; [reflexivity | discriminate | discriminate].
Defined.

Lemma CreateHealthCheck_selects_session_factory_witness :
  sessionFactory
    (@CreateHealthCheck collaborators ∅ {["lb"%string := "lb"%string]}
       (fun _ => zeroStats) 7 (config "bolt") (clusterOf []))
  = TCPDialSessionFactory.
Proof.
  destruct (@HealthcheckProps.CreateHealthCheck_selects_session_factory
              collaborators ∅ {["lb"%string := "lb"%string]}
              (fun _ => zeroStats) 7 (config "bolt") (clusterOf []))
    as [Hdefault _].
  apply Hdefault. reflexivity.
Defined.

(** The membership scenario of the specification: three hosts, two more
    added, one of the first three removed. *)
Example membership_scenario :
  let w := Start (fresh ["h1"; "h2"; "h3"]%string 1) in
  let w' := @OnClusterMemberUpdate collaborators ["h4"; "h5"]%string ["h2"%string] w in
  size (checkers (self w')) = 4%nat
  /\ localProcessHealthy (self w') = 4
  /\ healthy (stats (self w')) = 4.
Proof. vm_compute. done. Qed.

End HealthcheckExamples.

(** ** The stats store *)

Module StatsProps.
Import stats.

Implicit Types (x y ls : gmap string string) (ms : list Metrics) (st : store).

Lemma mapEqual_refl x : mapEqual x x = true.
Proof.
  unfold mapEqual. rewrite decide_False by auto.
  apply forallb_forall. intros [k xv] Hin.
  apply list_elem_of_In, elem_of_map_to_list in Hin. rewrite Hin.
  by apply bool_decide_eq_true.
Qed.

(** [mapEqual] decides equality of label sets. *)
Lemma mapEqual_spec x y : mapEqual x y = true <-> x = y.
Proof.
  split; [|intros ->; apply mapEqual_refl].
  unfold mapEqual. destruct (decide (size x <> size y)) as [|Hsz]; [done|].
  intros Hall. apply map_subseteq_size_eq; [|lia].
  apply map_subseteq_spec. intros k xv Hk.
  rewrite forallb_forall in Hall.
  specialize (Hall (k, xv)). simpl in Hall.
  destruct (y !! k) as [yv|].
  - f_equal. eapply bool_decide_eq_true.
    apply Hall, list_elem_of_In. by apply elem_of_map_to_list.
  - exfalso. assert (false = true) as F; [|discriminate F].
    apply Hall, list_elem_of_In. by apply elem_of_map_to_list.
Qed.

Lemma findExisting_app t ls ms ms' :
  findExisting t ls (ms ++ ms')
  = match findExisting t ls ms with
    | Some m => Some m
    | None => findExisting t ls ms'
    end.
Proof.
  induction ms as [|m ms IH]; simpl; [done|].
  by destruct (bool_decide (Type_ m = t) && mapEqual (Labels m) ls).
Qed.

Lemma findExisting_Some t ls ms m :
  findExisting t ls ms = Some m -> m ∈ ms /\ Type_ m = t /\ Labels m = ls.
Proof.
  induction ms as [|m' ms IH]; simpl; [done|].
  destruct (bool_decide (Type_ m' = t) && mapEqual (Labels m') ls) eqn:E.
  - intros [= ->]. apply andb_true_iff in E as [Ht Hl].
    apply bool_decide_eq_true in Ht. apply mapEqual_spec in Hl.
    split_and!; [apply elem_of_cons; by left|done|done].
  - intros H. destruct (IH H) as (? & ? & ?).
    split_and!; [apply elem_of_cons; by right|done|done].
Qed.

Lemma findExisting_new t ls p :
  findExisting t ls
    [{| ptr := p;
        pointee := {| typ := t; labels := ls; labelKeys := None;
                      labelVals := None; registry := ∅ |} |}]
  = Some {| ptr := p;
            pointee := {| typ := t; labels := ls; labelKeys := None;
                          labelVals := None; registry := ∅ |} |}.
Proof.
  simpl. unfold Type_, Labels. simpl.
  by rewrite bool_decide_eq_true_2, mapEqual_refl.
Qed.

(** C6.  More than ten labels: [NewStats] returns no instance and
    [errLabelCountExceeded], and the store is the one it was given.  Ten
    labels or fewer: it returns an instance and no error. *)
Theorem NewStats_label_count t ls st :
  maxLabelCount = 10%nat
  /\ ((maxLabelCount < size ls)%nat ->
      NewStats t ls st = (None, Some errLabelCountExceeded, st))
  /\ ((size ls <= maxLabelCount)%nat ->
      snd (fst (NewStats t ls st)) = None
      /\ is_Some (fst (fst (NewStats t ls st)))).
Proof.
  split_and!; [done| |].
  - intros Hgt. unfold NewStats. by rewrite decide_True.
  - intros Hle. unfold NewStats. rewrite decide_False by lia.
    destruct (findExisting t ls (metrics st)); simpl; eauto.
Qed.

(** C7.  Two calls in a row with the same type and with label sets that
    have the same keys and values: the second returns what the first
    returned (the same instance, by address and contents) and leaves the
    store as the first left it.  When the label set is within the cap the
    first call did return an instance: one of that type and label set,
    which is in the store, found there or appended by the call. *)
Theorem NewStats_same_pair_same_instance t t2 ls1 ls2 st m1 e1 st1 :
  t = t2 ->
  (forall k, ls1 !! k = ls2 !! k) ->
  NewStats t ls1 st = (m1, e1, st1) ->
  NewStats t2 ls2 st1 = (m1, e1, st1)
  /\ ((size ls1 <= maxLabelCount)%nat ->
      exists m, m1 = Some m /\ e1 = None
                /\ Type_ m = t /\ Labels m = ls1
                /\ m ∈ metrics st1
                /\ (st1 = st \/ metrics st1 = metrics st ++ [m])).
Proof.
  intros <- Heq%map_eq. subst ls2. unfold NewStats.
  destruct (decide (maxLabelCount < size ls1)%nat) as [Hgt|Hle].
  { intros [= <- <- <-]. split; [done|lia]. }
  destruct (findExisting t ls1 (metrics st)) as [m|] eqn:Hfind.
  - intros [= <- <- <-]. rewrite Hfind.
    split; [done|]. intros _. exists m.
    destruct (findExisting_Some _ _ _ _ Hfind) as (? & ? & ?). eauto 10.
  - intros [= <- <- <-]. simpl.
    rewrite findExisting_app, Hfind, findExisting_new.
    split; [done|]. intros _. eexists. split_and!; try done.
    + apply elem_of_app. right. apply elem_of_cons. by left.
    + by right.
Qed.

End StatsProps.

Module StatsExamples.
Import stats Demo.

Lemma NewStats_label_count_witness :
  (maxLabelCount < size labels11)%nat
  /\ NewStats "health" labels11 emptyStore
     = (None, Some errLabelCountExceeded, emptyStore).
Proof.
  assert (maxLabelCount < size labels11)%nat as Hgt by (vm_compute; lia).
  split; [exact Hgt|].
  destruct (StatsProps.NewStats_label_count "health" labels11 emptyStore)
    as (_ & Hover & _).
  exact (Hover Hgt).
Defined.

Lemma NewStats_same_pair_same_instance_witness :
  let '(m1, e1, st1) := NewStats "health" labels2 emptyStore in
  NewStats "health" labels2 st1 = (m1, e1, st1).
Proof.
  destruct (NewStats "health" labels2 emptyStore) as [[m1 e1] st1] eqn:E.
  apply (StatsProps.NewStats_same_pair_same_instance
           "health" "health" labels2 labels2 emptyStore m1 e1 st1
           eq_refl (fun k => eq_refl) E).
Defined.

(** Another type or another label set gets another instance. *)
Example NewStats_distinct_pairs :
  let '(a, _, st1) := NewStats "health" labels2 emptyStore in
  let '(b, _, st2) := NewStats "health" ∅ st1 in
  let '(c, _, st3) := NewStats "upstream" labels2 st2 in
  ptr <$> a = Some 0%nat /\ ptr <$> b = Some 1%nat /\ ptr <$> c = Some 2%nat
  /\ length (metrics st3) = 3%nat.
Proof. vm_compute. done. Qed.

End StatsExamples.

(** ** The sofarpc timer *)

Module TimerProps.
Import sofarpc.

Lemma advance_before d e :
  e < d -> advance e (NewTimer d) = {| remaining := Some (d - e); C := 0 |}.
Proof. intros H. unfold advance, NewTimer. simpl. rewrite decide_False; [done|lia]. Qed.

Lemma advance_due d e :
  d <= e -> advance e (NewTimer d) = {| remaining := None; C := 1 |}.
Proof. intros H. unfold advance, NewTimer. simpl. by rewrite decide_True. Qed.

(** The timer does what it is for when it is armed and left alone: the
    callback runs once and the timer is at rest again. *)
Lemma start_then_wait_fires_once d e pick :
  d <= e ->
  idle newTimer
  /\ run [CallStart d; Elapse e;
          Sched 0 pick; Sched 0 pick; Sched 0 pick; Sched 0 pick; Sched 0 pick]
         newTimer
     = Done (rested 1).
Proof.
  intros H. split; [done|]. cbv -[advance NewTimer].
  rewrite advance_due by done. reflexivity.
Qed.

(** [stop] before [start]: [stop] returns, leaving [stopped] set and a value
    in [stopChan]; the goroutine of the following [start] finds that value
    in its select before the interval is over, returns, and the callback is
    never invoked for that arm. *)
Lemma stop_then_start_never_fires d e pick :
  0 <= e < d ->
  stop newTimer = Done stoppedFresh
  /\ idle stoppedFresh
  /\ run [CallStart d; Elapse e;
          Sched 0 pick; Sched 0 pick; Sched 0 pick; Sched 0 pick]
         stoppedFresh
     = Done (rested 0).
Proof.
  intros H. split_and!; [done|done|]. cbv -[advance NewTimer].
  rewrite advance_before by lia. reflexivity.
Qed.

(** The same after any number of completed rounds: the timer is at rest,
    [stop] is called, and the next arm is lost. *)
Lemma stop_at_rest_then_start_never_fires n d e pick :
  0 <= e < d ->
  idle (rested n)
  /\ run [CallStop; CallStart d; Elapse e;
          Sched 0 pick; Sched 0 pick; Sched 0 pick; Sched 0 pick]
         (rested n)
     = Done (rested n).
Proof.
  intros H. split; [done|]. cbv -[advance timerReset].
  unfold timerReset, advance. cbn. rewrite decide_False by lia. reflexivity.
Qed.

(** [stop] while the callback runs: the value it sends stays in [stopChan]
    after the goroutine has returned and cleared [stopped]; the timer is
    idle, and the next [stop] blocks on the full channel. *)
Lemma stop_during_callback_blocks_next_stop d pick :
  run [CallStart d; Elapse d; Sched 0 pick; CallStop;
       Sched 0 pick; Sched 0 pick; Sched 0 pick; Sched 0 pick]
      newTimer
  = Done (restedWithToken 1)
  /\ idle (restedWithToken 1)
  /\ stop (restedWithToken 1) = Blocked.
Proof.
  split_and!; [|done|done]. cbv -[advance NewTimer].
  rewrite advance_due by lia. reflexivity.
Qed.

(** C4 on the code.  A timer just made is idle.  [stop] on it returns and
    is not a no-op; [start] with an interval of 5 then arms the timer, and
    with 3 of the 5 elapsed its goroutine takes the stale stop value and
    returns: the timer is at rest and the callback has not been and will
    not be invoked for this arm.  And an idle timer that was stopped while
    its callback ran blocks the next [stop]. *)
Theorem stale_stop_value_defeats_rearm (pick : bool) :
  idle newTimer
  /\ stop newTimer = Done stoppedFresh
  /\ stoppedFresh <> newTimer
  /\ run [CallStop; CallStart 5; Elapse 3;
          Sched 0 pick; Sched 0 pick; Sched 0 pick; Sched 0 pick]
         newTimer
     = Done (rested 0)
  /\ fired (rested 0) = 0%nat
  /\ remaining <$> innerTimer (tm (rested 0)) = Some None
  /\ run [CallStart 5; Elapse 5; Sched 0 pick; CallStop;
          Sched 0 pick; Sched 0 pick; Sched 0 pick; Sched 0 pick; CallStop]
         newTimer
     = Blocked.
Proof.
  split_and!; try done; by destruct pick.
Qed.

End TimerProps.

(** ** Router header matchers *)

Module RouterProps.
Import router.

Section WithRegexp.
Context {Regexp : Type} (Compile : string -> Regexp + string).

Lemma getRouterHeaders_loop (headers : list HeaderMatcher) acc log :
  foldl (fun '(headerDatas, log) header =>
           let headerData := newHeaderData header in
           if Regex header then
             match Compile (Name header) with
             | inr err =>
                 (headerDatas ++ [set_RegexPattern None headerData], log)
             | inl pattern =>
                 (headerDatas, log ++ ["getRouterHeaders compile error"%string])
             end
           else (headerDatas ++ [headerData], log))
        (acc, log) headers
  = (acc ++ omap (kept Compile) headers,
     log ++ ((fun _ => "getRouterHeaders compile error"%string)
               <$> filter (logged Compile) headers)).
Proof.
  revert acc log. induction headers as [|h hs IH]; intros acc log.
  - simpl. by rewrite !app_nil_r.
  - rewrite filter_cons. csimpl. unfold kept at 1.
    destruct (Regex h) eqn:Hr; [destruct (Compile (Name h)) as [p|e] eqn:Hc|].
    + rewrite decide_True by (split; eauto).
      etrans; [apply IH|]. cbn. by rewrite <- app_assoc.
    + rewrite decide_False by (intros [_ [p F]]; congruence).
      etrans; [apply IH|]. cbn. by rewrite <- app_assoc.
    + rewrite decide_False by (intros [F _]; congruence).
      etrans; [apply IH|]. cbn. by rewrite <- app_assoc.
Qed.

Lemma newHeaderData_inj h h' :
  @newHeaderData Regexp h = newHeaderData h' -> h = h'.
Proof. destruct h, h'. unfold newHeaderData. simpl. by intros [= -> -> ->]. Qed.

(** C10.  The result lists, in the order of the input, the matchers that
    are not regular expressions and the regex matchers whose name
    [regexp.Compile] rejects, each with a nil pattern; a regex matcher
    whose name compiles is left out, with one line in the log. *)
Theorem getRouterHeaders_keeps_regex_iff_compile_fails
    (headers : list HeaderMatcher) :
  let result := fst (getRouterHeaders Compile headers) in
  let log := snd (getRouterHeaders Compile headers) in
  result = omap (kept Compile) headers
  /\ log = (fun _ => "getRouterHeaders compile error"%string)
             <$> filter (logged Compile) headers
  /\ (forall d, d ∈ result -> RegexPattern d = None)
  /\ (forall h, h ∈ headers ->
        (Regex h = false -> newHeaderData h ∈ result)
        /\ (Regex h = true ->
            (newHeaderData h ∈ result
             <-> exists err, Compile (Name h) = inr err)
            /\ (newHeaderData h ∉ result
                <-> exists pattern, Compile (Name h) = inl pattern))).
Proof.
  intros result log. subst result log. unfold getRouterHeaders.
  rewrite getRouterHeaders_loop. simpl.
  assert (forall h, Regex h = true ->
            newHeaderData h ∈ omap (kept Compile) headers ->
            exists err, Compile (Name h) = inr err) as Hin.
  { intros h Hr (h' & Hh' & Hk)%list_elem_of_omap. unfold kept in Hk.
    destruct (Regex h') eqn:Hr'.
    - destruct (Compile (Name h')) as [p|e] eqn:Hc; [done|].
      apply (inj Some), newHeaderData_inj in Hk. subst h'. eauto.
    - apply (inj Some), newHeaderData_inj in Hk. congruence. }
  split_and!; [done|done| |].
  - intros d (h & _ & Hk)%list_elem_of_omap. unfold kept in Hk.
    destruct (Regex h); [destruct (Compile (Name h))|]; by simplify_eq.
  - intros h Hh. split.
    + intros Hr. apply list_elem_of_omap. exists h. split; [done|].
      unfold kept. by rewrite Hr.
    + intros Hr. split; split.
      * by apply Hin.
      * intros [e He]. apply list_elem_of_omap. exists h. split; [done|].
        unfold kept. by rewrite Hr, He.
      * intros Hout. destruct (Compile (Name h)) as [p|e] eqn:Hc; [eauto|].
        exfalso. apply Hout. apply list_elem_of_omap. exists h.
        split; [done|]. unfold kept. by rewrite Hr, Hc.
      * intros [p Hp] Hd. destruct (Hin h Hr Hd) as [e He]. congruence.
Qed.

End WithRegexp.

Lemma getRouterHeaders_keeps_regex_iff_compile_fails_witness :
  let headers := [ {| Name := "x-id"; Value := "1"; Regex := false |};
                   {| Name := "x-.*"; Value := "2"; Regex := true |};
                   {| Name := "["; Value := "3"; Regex := true |} ]%string in
  fst (getRouterHeaders Demo.Compile headers)
  = [ {| hdName := {| str := "x-id" |}; hdValue := "1"; IsRegex := false;
         RegexPattern := None |};
      {| hdName := {| str := "[" |}; hdValue := "3"; IsRegex := true;
         RegexPattern := None |} ]%string.
Proof.
  intros headers.
  destruct (getRouterHeaders_keeps_regex_iff_compile_fails Demo.Compile headers)
    as [-> _].
  reflexivity.
Defined.

End RouterProps.

(** * Further properties *)

Module Int64Arith.
Import Int64.

Lemma wrap_add_l a b : wrap (wrap a + b) = wrap (a + b).
Proof.
  unfold wrap, modulus.
  replace ((a + 2 ^ 63) mod 2 ^ 64 - 2 ^ 63 + b + 2 ^ 63)
    with ((a + 2 ^ 63) mod 2 ^ 64 + b) by lia.
  rewrite Zplus_mod_idemp_l. f_equal. f_equal. lia.
Qed.

Lemma sub_add_cancel x : sub (add x 1) 1 = wrap x.
Proof.
  unfold sub, add. replace (wrap (x + 1) - 1) with (wrap (x + 1) + (- 1)) by lia.
  rewrite wrap_add_l. f_equal. lia.
Qed.

Lemma add_sub_cancel x : add (sub x 1) 1 = wrap x.
Proof.
  unfold sub, add. replace (x - 1) with (x + (- 1)) by lia.
  rewrite wrap_add_l. f_equal. lia.
Qed.

End Int64Arith.

(** ** The orchestrator: membership *)

Module HealthcheckMore.
Import healthcheck.

Section More.
Context `{C : Collaborators}.
Implicit Types (w : World) (h host : Host) (hc : healthChecker).
Implicit Types (l : list Host).

Local Abbreviation addr := AddressString.
Local Abbreviation starts := (fun w l => foldl (fun w h => startCheck h w) w l).
Local Abbreviation stops := (fun w l => foldl (fun w h => stopCheck h w) w l).

(** *** startCheck, case by case *)

Lemma startCheck_cases h w :
  (is_Some (checkers (self w) !! addr h) /\ startCheck h w = w)
  \/ (checkers (self w) !! addr h = None
      /\ checkers (self (startCheck h w)) = checkers (self w)
      /\ localProcessHealthy (self (startCheck h w)) = localProcessHealthy (self w))
  \/ (checkers (self w) !! addr h = None
      /\ (exists c, checkers (self (startCheck h w))
                    = <[addr h := c]> (checkers (self w)))
      /\ localProcessHealthy (self (startCheck h w))
         = Int64.add (localProcessHealthy (self w)) 1).
Proof.
  unfold startCheck. destruct (checkers (self w) !! addr h) eqn:E.
  - left. eauto.
  - destruct (NewSession _ _ _) as [[s|] f']; simpl.
    + right. right. eauto.
    + right. left. eauto.
Qed.

Lemma startCheck_frame h w :
  cluster (self (startCheck h w)) = cluster (self w)
  /\ stats (self (startCheck h w)) = stats (self w)
  /\ hostCheckCallbacks (self (startCheck h w)) = hostCheckCallbacks (self w).
Proof.
  unfold startCheck. destruct (checkers (self w) !! addr h); [done|].
  by destruct (NewSession _ _ _) as [[s|] f'].
Qed.

Lemma starts_frame l w :
  cluster (self (starts w l)) = cluster (self w)
  /\ stats (self (starts w l)) = stats (self w).
Proof.
  revert w. induction l as [|h l IH]; intros w; simpl; [done|].
  destruct (IH (startCheck h w)) as [-> ->].
  by destruct (startCheck_frame h w) as (-> & -> & _).
Qed.

Lemma startCheck_keeps_checker h w a c :
  checkers (self w) !! a = Some c ->
  checkers (self (startCheck h w)) !! a = Some c.
Proof.
  intros Ha. destruct (startCheck_cases h w) as [[_ ->]|[(_ & -> & _)|(Hn & [c' ->] & _)]];
    [done|done|].
  rewrite lookup_insert_ne; [done|]. intros E. congruence.
Qed.

Lemma starts_keep_checker l w a c :
  checkers (self w) !! a = Some c ->
  checkers (self (starts w l)) !! a = Some c.
Proof.
  revert w. induction l as [|h l IH]; intros w Ha; simpl; [done|].
  by apply IH, startCheck_keeps_checker.
Qed.

Lemma startCheck_new_key h w a :
  is_Some (checkers (self (startCheck h w)) !! a) ->
  is_Some (checkers (self w) !! a) \/ a = addr h.
Proof.
  destruct (startCheck_cases h w) as [[_ ->]|[(_ & -> & _)|(Hn & [c' ->] & _)]];
    [auto|auto|].
  rewrite lookup_insert_is_Some. intros [->|[_ ?]]; auto.
Qed.

Lemma starts_new_key l w a :
  is_Some (checkers (self (starts w l)) !! a) ->
  is_Some (checkers (self w) !! a) \/ a ∈ addr <$> l.
Proof.
  revert w. induction l as [|h l IH]; intros w Ha; simpl in Ha; [auto|].
  rewrite fmap_cons. destruct (IH _ Ha) as [H|H].
  - destruct (startCheck_new_key h w a H) as [?| ->]; [auto|].
    right. apply elem_of_cons. by left.
  - right. apply elem_of_cons. by right.
Qed.

(** *** The counter and the map *)

Lemma startCheck_balanced h w : balanced w -> balanced (startCheck h w).
Proof.
  unfold balanced. intros Hb.
  destruct (startCheck_cases h w) as [[_ ->]|[(_ & -> & ->)|(Hn & [c' ->] & ->)]];
    [done|done|].
  rewrite map_size_insert_None by done. rewrite Hb. unfold Int64.add.
  rewrite Int64Arith.wrap_add_l. f_equal. lia.
Qed.

Lemma stopCheck_balanced h w : balanced w -> balanced (stopCheck h w).
Proof.
  unfold balanced. intros Hb.
  rewrite HealthcheckProps.stopCheck_checkers,
    HealthcheckProps.stopCheck_localProcessHealthy, map_size_delete.
  destruct (checkers (self w) !! addr h) as [c|] eqn:E; simpl; [|done].
  assert (size (checkers (self w)) ≠ 0%nat) as Hne.
  { intros Hz. apply map_size_empty_iff in Hz. rewrite Hz in E.
    by rewrite lookup_empty in E. }
  rewrite Hb. unfold Int64.sub.
  replace (Int64.wrap (Z.of_nat (size (checkers (self w)))) - 1)
    with (Int64.wrap (Z.of_nat (size (checkers (self w)))) + (- 1)) by lia.
  rewrite Int64Arith.wrap_add_l. f_equal. lia.
Qed.

Lemma starts_balanced l w : balanced w -> balanced (starts w l).
Proof.
  revert w. induction l as [|h l IH]; intros w Hb; simpl; [done|].
  by apply IH, startCheck_balanced.
Qed.

Lemma stops_balanced l w : balanced w -> balanced (stops w l).
Proof.
  revert w. induction l as [|h l IH]; intros w Hb; simpl; [done|].
  by apply IH, stopCheck_balanced.
Qed.

(** A checker just built is balanced: no checkers, counter zero. *)
Lemma newHealthChecker_balanced ccbs mk now (cfg : HealthCheck) (cl : Cluster) f es :
  balanced {| self := newHealthChecker ccbs mk now cfg cl f; effects := es |}.
Proof.
  unfold balanced. simpl.
  destruct (HealthcheckProps.newHealthChecker_sessionFactory ccbs mk now cfg cl f)
    as (_ & _ & _ & -> & ->).
  by rewrite map_size_empty.
Qed.

Lemma Start_balanced w : balanced w -> balanced (Start w).
Proof.
  intros Hb. unfold Start. rewrite HealthcheckProps.foldl_hostSets.
  by apply starts_balanced.
Qed.

Lemma Stop_balanced w : balanced w -> balanced (Stop w).
Proof.
  intros Hb. unfold Stop. rewrite HealthcheckProps.foldl_hostSets.
  by apply stops_balanced.
Qed.

(** X1.  Membership operations keep [localProcessHealthy] equal to the number of
    checkers (as an int64): [startCheck], [stopCheck], [Start], [Stop] and
    [OnClusterMemberUpdate] all take a balanced orchestrator to a balanced
    one. *)
Theorem membership_keeps_counter_balanced w :
  balanced w ->
  (forall h, balanced (startCheck h w))
  /\ (forall h, balanced (stopCheck h w))
  /\ balanced (Start w)
  /\ balanced (Stop w)
  /\ (forall hostsAdd hostsDel, balanced (OnClusterMemberUpdate hostsAdd hostsDel w)).
Proof.
  intros Hb. split_and!.
  - intros h. by apply startCheck_balanced.
  - intros h. by apply stopCheck_balanced.
  - by apply Start_balanced.
  - by apply Stop_balanced.
  - intros hostsAdd hostsDel. unfold OnClusterMemberUpdate.
    by apply (stops_balanced hostsDel), (starts_balanced hostsAdd).
Qed.

(** X2.  After [Start], [OnClusterMemberUpdate], [incHealthy] and [decHealthy] the
    healthy gauge shows [localProcessHealthy] as the call left it.  [Stop]
    does not publish: the gauge keeps the value it had, whatever happens to
    the counter. *)
Theorem gauge_published w :
  healthy (stats (self (Start w))) = localProcessHealthy (self (Start w))
  /\ (forall hostsAdd hostsDel,
        healthy (stats (self (OnClusterMemberUpdate hostsAdd hostsDel w)))
        = localProcessHealthy (self (OnClusterMemberUpdate hostsAdd hostsDel w)))
  /\ (forall host changed,
        healthy (stats (self (incHealthy host changed w)))
        = localProcessHealthy (self (incHealthy host changed w)))
  /\ (forall host reason changed,
        healthy (stats (self (decHealthy host reason changed w)))
        = localProcessHealthy (self (decHealthy host reason changed w)))
  /\ healthy (stats (self (Stop w))) = healthy (stats (self w)).
Proof.
  split_and!; [done|done| | |].
  - intros host changed. unfold incHealthy.
    rewrite HealthcheckProps.runCallbacks_eq. by destruct changed.
  - intros host reason changed. unfold decHealthy.
    rewrite HealthcheckProps.runCallbacks_eq. by destruct changed, reason.
  - unfold Stop. rewrite HealthcheckProps.foldl_hostSets.
    by destruct (HealthcheckProps.stopChecks_frame
                   (concat (Hosts <$> HostSetsByPriority
                                        (getPrioritySet (cluster (self w))))) w)
      as [_ ->].
Qed.

(** X3.  After a membership update no host of [hostsDel] has a checker, also when
    the host is in [hostsAdd] as well (additions are made first); an address
    outside [hostsDel] has the checker it had before the update, when it had
    one. *)
Theorem OnClusterMemberUpdate_removals_win hostsAdd hostsDel w :
  let w' := OnClusterMemberUpdate hostsAdd hostsDel w in
  (forall h, h ∈ hostsDel -> checkers (self w') !! AddressString h = None)
  /\ (forall a c, a ∉ AddressString <$> hostsDel ->
                  checkers (self w) !! a = Some c ->
                  checkers (self w') !! a = Some c)
  /\ (forall a, is_Some (checkers (self w') !! a) ->
                is_Some (checkers (self w) !! a) \/ a ∈ AddressString <$> hostsAdd).
Proof.
  intros w'. subst w'. unfold OnClusterMemberUpdate. simpl.
  rewrite HealthcheckProps.stopChecks_checkers. split_and!.
  - intros h Hh. rewrite HealthcheckProps.lookup_deletes.
    rewrite decide_True; [done|]. apply list_elem_of_fmap. eauto.
  - intros a c Ha Hc. rewrite HealthcheckProps.lookup_deletes.
    rewrite decide_False by done. by apply starts_keep_checker.
  - intros a. rewrite HealthcheckProps.lookup_deletes.
    destruct (decide (a ∈ addr <$> hostsDel)); [by intros [? ?]|].
    apply starts_new_key.
Qed.

(** X4.  [Start] only adds: every checker that was there is still there, the same
    one, and a new key is the address of a host of the cluster. *)
Theorem Start_only_adds w :
  (forall a c, checkers (self w) !! a = Some c ->
               checkers (self (Start w)) !! a = Some c)
  /\ (forall a, is_Some (checkers (self (Start w)) !! a) ->
                is_Some (checkers (self w) !! a)
                \/ a ∈ AddressString <$> clusterHosts (self w))
  /\ cluster (self (Start w)) = cluster (self w).
Proof.
  unfold Start, clusterHosts. rewrite HealthcheckProps.foldl_hostSets. simpl.
  split_and!.
  - intros a c. apply starts_keep_checker.
  - intros a. apply starts_new_key.
  - apply starts_frame.
Qed.

(** X5.  Adding a host that has no checker and removing it again gives back the
    checkers map, the stats and, for a counter within int64, the counter:
    whether or not the factory answered a session. *)
Theorem startCheck_stopCheck_round_trip h w :
  checkers (self w) !! AddressString h = None ->
  Int64.in_range (localProcessHealthy (self w)) ->
  let w' := stopCheck h (startCheck h w) in
  checkers (self w') = checkers (self w)
  /\ localProcessHealthy (self w') = localProcessHealthy (self w)
  /\ stats (self w') = stats (self w).
Proof.
  intros Hn Hr w'. subst w'.
  rewrite HealthcheckProps.stopCheck_checkers,
    HealthcheckProps.stopCheck_localProcessHealthy.
  destruct (HealthcheckProps.stopCheck_frame h (startCheck h w)) as (_ & -> & _).
  destruct (startCheck_frame h w) as (_ & -> & _).
  destruct (startCheck_cases h w)
    as [[[c Hc] _]|[(_ & -> & ->)|(_ & [c' ->] & ->)]].
  - congruence.
  - rewrite Hn. by rewrite delete_id.
  - rewrite lookup_insert_eq, delete_insert_id by done.
    rewrite Int64Arith.sub_add_cancel. by rewrite Int64Facts.wrap_id.
Qed.

(** *** Construction *)

Lemma set_hostCheckCallbacks_id hc :
  set_hostCheckCallbacks (hostCheckCallbacks hc) hc = hc.
Proof. by destruct hc. Qed.

Lemma attach_common_callbacks (ccbs : gmap string HealthCheckCb) names hc :
  foldl (fun hc name =>
           match ccbs !! name with
           | Some cb => AddHostCheckCompleteCb cb hc
           | None => hc
           end) hc names
  = set_hostCheckCallbacks
      (hostCheckCallbacks hc ++ omap (fun name => ccbs !! name) names) hc.
Proof.
  revert hc. induction names as [|n names IH]; intros hc; simpl.
  - by rewrite app_nil_r, set_hostCheckCallbacks_id.
  - rewrite IH. destruct (ccbs !! n) as [cb|]; [|done].
    unfold AddHostCheckCompleteCb, set_hostCheckCallbacks. simpl.
    by rewrite <- app_assoc.
Qed.

(** X6.  What [newHealthChecker] builds.  Its callbacks are the registered ones
    among the names of the config, in the order of the config, names without
    a registration skipped.  Timeout and base interval are those of the
    config, or the defaults of one second and fifteen seconds where the
    config says zero: neither is ever zero.  The jitter and the thresholds
    are taken as they are. *)
Theorem newHealthChecker_fields ccbs mk now (cfg : HealthCheck) (cl : Cluster) f :
  let hc := newHealthChecker ccbs mk now cfg cl f in
  hostCheckCallbacks hc = omap (fun name => ccbs !! name) (CommonCallbacks cfg)
  /\ timeout hc = (if decide (Timeout cfg = 0) then 1000000000 else Timeout cfg)
  /\ intervalBase hc
     = (if decide (Interval cfg = 0) then 15000000000 else Interval cfg)
  /\ timeout hc <> 0
  /\ intervalBase hc <> 0
  /\ intervalJitter hc = IntervalJitter cfg
  /\ healthyThreshold hc = HealthyThreshold cfg
  /\ unhealthyThreshold hc = UnhealthyThreshold cfg
  /\ stats hc = mk (ServiceName cfg).
Proof.
  intros hc. subst hc. unfold newHealthChecker.
  rewrite attach_common_callbacks. simpl.
  unfold DefaultTimeout, DefaultInterval.
  destruct (decide (Timeout cfg <> 0)), (decide (Timeout cfg = 0));
    destruct (decide (Interval cfg <> 0)), (decide (Interval cfg = 0));
    split_and!; try done; lia.
Qed.

End More.

(** *** With a factory that always answers a session *)

Section Reliable.
Context `{C : Collaborators}.
Hypothesis always_session :
  forall f cfg (h : Host), is_Some (fst (NewSession f cfg h)).
Implicit Types (w : World) (h : Host) (l : list Host).

Local Abbreviation addr := AddressString.

Lemma startCheck_checks h w :
  is_Some (checkers (self (startCheck h w)) !! addr h).
Proof.
  unfold startCheck. destruct (checkers (self w) !! addr h) eqn:E.
  - rewrite E. eauto.
  - pose proof (always_session (sessionFactory (self w)) (sessionConfig (self w)) h)
      as [s Hs].
    destruct (NewSession _ _ _) as [[s'|] f']; simpl in *; [|done].
    rewrite lookup_insert_eq. eauto.
Qed.

Lemma starts_check l w a :
  a ∈ addr <$> l ->
  is_Some (checkers (self (foldl (fun w h => startCheck h w) w l)) !! a).
Proof.
  revert w. induction l as [|h l IH]; intros w Ha; simpl.
  - by apply elem_of_nil in Ha.
  - rewrite fmap_cons in Ha. apply elem_of_cons in Ha as [->|Ha].
    + apply HealthcheckProps.startChecks_keep, startCheck_checks.
    + by apply IH.
Qed.

Lemma dom_Stop w :
  dom (checkers (self (Stop w))) = dom (checkers (self w)) ∖ clusterAddrs (self w).
Proof.
  apply set_eq. intros a.
  rewrite elem_of_difference, !elem_of_dom. unfold clusterAddrs.
  rewrite elem_of_list_to_set. unfold Stop, clusterHosts.
  rewrite HealthcheckProps.foldl_hostSets, HealthcheckProps.stopChecks_checkers,
    HealthcheckProps.lookup_deletes.
  destruct (decide (a ∈ _)) as [Hin|Hout].
  - split; [by intros [? ?]|]. by intros [_ ?].
  - split; [by intros ?|]. by intros [? _].
Qed.

Lemma cluster_Stop w : cluster (self (Stop w)) = cluster (self w).
Proof.
  unfold Stop. rewrite HealthcheckProps.foldl_hostSets.
  apply HealthcheckProps.stopChecks_frame.
Qed.

Lemma cluster_Start w : cluster (self (Start w)) = cluster (self w).
Proof.
  unfold Start. rewrite HealthcheckProps.foldl_hostSets. simpl.
  apply starts_frame.
Qed.

Lemma dom_Start w :
  dom (checkers (self (Start w))) = dom (checkers (self w)) ∪ clusterAddrs (self w).
Proof.
  apply set_eq. intros a.
  rewrite elem_of_union, !elem_of_dom. unfold clusterAddrs.
  rewrite elem_of_list_to_set. unfold Start, clusterHosts.
  rewrite HealthcheckProps.foldl_hostSets. simpl. split.
  - apply starts_new_key.
  - intros [Ha|Ha].
    + by apply HealthcheckProps.startChecks_keep.
    + by apply starts_check.
Qed.

Lemma balanced_dom w w' :
  balanced w -> balanced w' ->
  dom (checkers (self w)) = dom (checkers (self w')) ->
  localProcessHealthy (self w) = localProcessHealthy (self w').
Proof.
  unfold balanced. intros -> -> Hd. by rewrite <- !size_dom, Hd.
Qed.

(** X7.  With a session factory that never answers nil.  [Start] puts a checker
    on every host of the cluster and keeps the others: the checked addresses
    are those checked before together with those of the cluster.  [Stop]
    followed by [Start] checks the same addresses as [Start] alone, and from
    a balanced orchestrator leaves the same counter: in particular [Stop]
    and then [Start] after a [Start] brings back the checked set of that
    [Start]. *)
Theorem Stop_then_Start_recreates_checkers w :
  dom (checkers (self (Start w))) = dom (checkers (self w)) ∪ clusterAddrs (self w)
  /\ dom (checkers (self (Start (Stop w)))) = dom (checkers (self (Start w)))
  /\ dom (checkers (self (Start (Stop (Start w)))))
     = dom (checkers (self (Start w)))
  /\ (balanced w ->
      localProcessHealthy (self (Start (Stop w)))
      = localProcessHealthy (self (Start w))).
Proof.
  assert (forall w, dom (checkers (self (Start (Stop w))))
                    = dom (checkers (self (Start w)))) as Hrt.
  { intros w0. rewrite !dom_Start, dom_Stop. unfold clusterAddrs, clusterHosts.
    rewrite cluster_Stop. apply set_eq. intros a.
    rewrite !elem_of_union, elem_of_difference.
    destruct (decide (a ∈ list_to_set (C:=gset string)
                (addr <$> concat (Hosts <$> HostSetsByPriority
                                    (getPrioritySet (cluster (self w0))))))); tauto. }
  split_and!.
  - apply dom_Start.
  - apply Hrt.
  - rewrite Hrt, !dom_Start. unfold clusterAddrs, clusterHosts.
    rewrite cluster_Start. apply set_eq. intros a. rewrite !elem_of_union. tauto.
  - intros Hb. apply balanced_dom; [| |apply Hrt].
    + by apply Start_balanced, Stop_balanced.
    + by apply Start_balanced.
Qed.

End Reliable.

Lemma membership_keeps_counter_balanced_witness :
  balanced Demo.oneChecked /\ balanced (Stop Demo.oneChecked).
Proof.
  assert (balanced Demo.oneChecked) as Hb by reflexivity.
  split; [exact Hb|].
  apply (membership_keeps_counter_balanced Demo.oneChecked Hb).
Defined.

Lemma startCheck_stopCheck_round_trip_witness :
  let w := Demo.fresh ["a"%string] 1 in
  checkers (self (@stopCheck Demo.collaborators "a"%string
                    (@startCheck Demo.collaborators "a"%string w)))
  = checkers (self w).
Proof.
  intros w.
  apply (@startCheck_stopCheck_round_trip Demo.collaborators "a"%string w).
  - reflexivity.
  - vm_compute. split; discriminate.
Defined.

Lemma Stop_then_Start_recreates_checkers_witness :
  let w := Demo.reliableFresh ["h1"; "h2"; "h1"]%string in
  dom (checkers (self (Start (Stop (Start w)))))
  = dom (checkers (self (Start w))).
Proof.
  intros w.
  apply (@Stop_then_Start_recreates_checkers Demo.reliable
           (fun f _ _ => mk_is_Some (Some f) f eq_refl) w).
Defined.

End HealthcheckMore.

(** ** The sofarpc timer: every execution *)

Module TimerMore.
Import sofarpc.

Implicit Types (s : system) (ws : list worker) (w : worker) (p : worker -> bool).

Lemma countIf_app p ws ws' :
  countIf p (ws ++ ws') = (countIf p ws + countIf p ws')%nat.
Proof. induction ws as [|w ws IH]; simpl; [done|]. rewrite IH. lia. Qed.

Lemma countIf_insert p ws i w w' :
  ws !! i = Some w ->
  (countIf p (<[i := w']> ws) + (if p w then 1 else 0)
   = countIf p ws + (if p w' then 1 else 0))%nat.
Proof.
  revert i. induction ws as [|x ws IH]; intros [|i] H; simplify_eq/=.
  - lia.
  - specialize (IH i H). lia.
Qed.

Lemma countIf_delete p ws i w :
  ws !! i = Some w ->
  (countIf p (delete i ws) + (if p w then 1 else 0) = countIf p ws)%nat.
Proof.
  revert i. induction ws as [|x ws IH]; intros [|i] H; simplify_eq/=.
  - lia.
  - specialize (IH i H). lia.
Qed.

(** What a step of a goroutine does to the timer's flags and to itself. *)
Lemma workerStep_inv pick w s o s' :
  workerStep pick w s = Some (o, s') ->
  workers s' = workers s
  /\ match w with
     | AtSelect =>
         started (tm s') = started (tm s)
         /\ ((o = Some InCallback /\ fired s' = S (fired s))
             \/ (o = Some DeferStop /\ fired s' = fired s))
     | InCallback => o = Some DeferStop /\ s' = s
     | DeferStop =>
         o = Some DeferStoreStarted /\ started (tm s') = started (tm s)
         /\ fired s' = fired s
     | DeferStoreStarted =>
         o = Some DeferStoreStopped /\ started (tm s') = 0 /\ fired s' = fired s
     | DeferStoreStopped =>
         o = None /\ started (tm s') = started (tm s) /\ fired s' = fired s
     end.
Proof.
  destruct w; simpl.
  - destruct (timerReady (tm s)), (stopReady (tm s)), pick;
      intros [= <- <-]; simpl; auto 10.
  - intros [= <- <-]. auto.
  - intros [= <- <-]. auto.
  - intros [= <- <-]. auto.
  - intros [= <- <-]. auto.
Qed.

(** *** At most one goroutine holds the timer *)

Lemma inCallback_live ws : (countIf inCallback ws <= countIf live ws)%nat.
Proof.
  induction ws as [|w ws IH]; simpl; [done|]. destruct w; simpl; lia.
Qed.

Lemma exec_held a s s' : held s -> exec a s = Done s' -> held s'.
Proof.
  unfold held. intros Hh. destruct a as [d| | |d|i pick]; simpl.
  - unfold start. destruct (decide (started (tm s) = 0)) as [Hz|Hnz].
    + intros [= <-]. simpl. right. split; [done|].
      rewrite countIf_app. simpl. destruct Hh as [[_ ->]|[? _]]; [done|congruence].
    + by intros [= <-].
  - unfold stop. destruct (decide (stopped (tm s) = 0)); [|by intros [= <-]].
    simpl. destruct (closed (stopChan (tm s))); [done|].
    destruct (decide (buffered (stopChan (tm s)) < 1)%nat); [|done].
    by intros [= <-].
  - unfold close. destruct (closed (stopChan (tm s))); [done|]. by intros [= <-].
  - by intros [= <-].
  - destruct (workers s !! i) as [w|] eqn:Hw; [|done].
    destruct (workerStep pick w s) as [[[w'|] s1]|] eqn:Hstep; [| |done].
    + intros [= <-]. simpl.
      destruct (workerStep_inv _ _ _ _ _ Hstep) as [Hws Hcase]. rewrite Hws.
      pose proof (countIf_insert live (workers s) i w w' Hw) as Hc.
      destruct w; simpl in *.
      * destruct Hcase as [-> [[[= ->] _]|[[= ->] _]]]; simpl in Hc;
          (replace (countIf live (<[i:=_]> (workers s)))
             with (countIf live (workers s)) by lia); done.
      * destruct Hcase as [[= ->] ->]. simpl in Hc.
        by replace (countIf live (<[i:=DeferStop]> (workers s)))
          with (countIf live (workers s)) by lia.
      * destruct Hcase as ([= ->] & -> & _). simpl in Hc.
        by replace (countIf live (<[i:=DeferStoreStarted]> (workers s)))
          with (countIf live (workers s)) by lia.
      * destruct Hcase as ([= ->] & -> & _). simpl in Hc.
        left. split; [done|]. destruct Hh as [[_ Hz]|[_ Ho]]; lia.
      * by destruct Hcase as ([=] & _).
    + intros [= <-]. simpl.
      destruct (workerStep_inv _ _ _ _ _ Hstep) as [Hws Hcase]. rewrite Hws.
      pose proof (countIf_delete live (workers s) i w Hw) as Hc.
      destruct w; simpl in *;
        try (by destruct Hcase as [? ?]);
        try (by destruct Hcase as [_ [[[=] _]|[[=] _]]]).
      destruct Hcase as (_ & -> & _).
      by replace (countIf live (delete i (workers s)))
        with (countIf live (workers s)) by lia.
Qed.

Lemma run_held acts s s' : held s -> run acts s = Done s' -> held s'.
Proof.
  revert s. induction acts as [|a acts IH]; intros s Hh; simpl.
  - by intros [= <-].
  - destruct (exec a s) as [s1| |] eqn:E; [|done|done].
    apply IH. by eapply exec_held.
Qed.

(** X10.  In every execution of a timer made by [newTimer], whatever the calls and
    the scheduling: at any point at most one goroutine of [start] has not yet
    cleared [started], so at most one invocation of the callback is in
    progress; and [started] is 1 exactly while there is such a goroutine. *)
Theorem at_most_one_callback_in_flight acts s :
  run acts newTimer = Done s ->
  (countIf inCallback (workers s) <= 1)%nat
  /\ (countIf live (workers s) <= 1)%nat
  /\ (started (tm s) = 1 <-> countIf live (workers s) = 1%nat)
  /\ (started (tm s) = 0 <-> countIf live (workers s) = 0%nat).
Proof.
  intros Hrun.
  assert (held s) as Hh.
  { eapply run_held; [|exact Hrun]. left. done. }
  pose proof (inCallback_live (workers s)).
  destruct Hh as [[Hs Hc]|[Hs Hc]]; rewrite Hs, Hc in *;
    split_and!; try lia; split; intros; lia || done.
Qed.

(** *** The callback never runs more often than [start] was called *)

Lemma exec_fired a s s' :
  exec a s = Done s' ->
  (fired s' + countIf atSelect (workers s')
   <= fired s + countIf atSelect (workers s) + startCalls [a])%nat
  /\ (fired s <= fired s')%nat.
Proof.
  destruct a as [d| | |d|i pick]; simpl.
  - unfold start. destruct (decide (started (tm s) = 0)).
    + intros [= <-]. simpl. rewrite countIf_app. simpl. lia.
    + intros [= <-]. lia.
  - unfold stop. destruct (decide (stopped (tm s) = 0)); [|intros [= <-]; lia].
    simpl. destruct (closed (stopChan (tm s))); [done|].
    destruct (decide (buffered (stopChan (tm s)) < 1)%nat); [|done].
    intros [= <-]. simpl. lia.
  - unfold close. destruct (closed (stopChan (tm s))); [done|].
    intros [= <-]. simpl. lia.
  - intros [= <-]. simpl. lia.
  - destruct (workers s !! i) as [w|] eqn:Hw; [|done].
    destruct (workerStep pick w s) as [[[w'|] s1]|] eqn:Hstep; [| |done].
    + intros [= <-]. simpl.
      destruct (workerStep_inv _ _ _ _ _ Hstep) as [Hws Hcase]. rewrite Hws.
      pose proof (countIf_insert atSelect (workers s) i w w' Hw) as Hc.
      destruct w; simpl in *.
      * destruct Hcase as [_ [[[= ->] ->]|[[= ->] ->]]]; simpl in Hc; lia.
      * destruct Hcase as [[= ->] ->]. simpl in Hc. lia.
      * destruct Hcase as ([= ->] & _ & ->). simpl in Hc. lia.
      * destruct Hcase as ([= ->] & _ & ->). simpl in Hc. lia.
      * by destruct Hcase as ([=] & _).
    + intros [= <-]. simpl.
      destruct (workerStep_inv _ _ _ _ _ Hstep) as [Hws Hcase]. rewrite Hws.
      pose proof (countIf_delete atSelect (workers s) i w Hw) as Hc.
      destruct w; simpl in *;
        try (by destruct Hcase as [? ?]);
        try (by destruct Hcase as [_ [[[=] _]|[[=] _]]]).
      destruct Hcase as (_ & _ & ->). lia.
Qed.

Lemma startCalls_cons a acts :
  startCalls (a :: acts) = (startCalls [a] + startCalls acts)%nat.
Proof. by destruct a. Qed.

(** X11.  In every execution, from any state: the number of invocations of the
    callback never goes down, and it grows by at most the number of
    goroutines waiting in their select at the beginning plus the number of
    calls of [start] in the execution.  For a timer made by [newTimer] the
    callback has run at most as often as [start] was called. *)
Theorem callback_runs_at_most_once_per_start acts s s' :
  run acts s = Done s' ->
  (fired s <= fired s')%nat
  /\ (fired s' + countIf atSelect (workers s')
      <= fired s + countIf atSelect (workers s) + startCalls acts)%nat
  /\ (s = newTimer -> (fired s' <= startCalls acts)%nat).
Proof.
  revert s. induction acts as [|a acts IH]; intros s; simpl run.
  - intros [= <-]. split_and!; [lia|simpl; lia|intros ->; simpl; lia].
  - destruct (exec a s) as [s1| |] eqn:E; [|done|done]. intros Hrun.
    destruct (IH _ Hrun) as (H1 & H2 & _).
    destruct (exec_fired _ _ _ E) as [H3 H4].
    rewrite startCalls_cons.
    split_and!; [lia|lia|]. intros ->. simpl in *. lia.
Qed.

(** *** Rounds *)

(** X12.  Armed and left alone until the interval is over, the timer invokes the
    callback once and is at rest again, ready for the next round: from a
    fresh timer and from a timer at rest after any number of rounds. *)
Theorem armed_timer_fires_once_per_round n d e pick :
  d <= e ->
  run [CallStart d; Elapse e;
       Sched 0 pick; Sched 0 pick; Sched 0 pick; Sched 0 pick; Sched 0 pick]
      newTimer
  = Done (rested 1)
  /\ run [CallStart d; Elapse e;
          Sched 0 pick; Sched 0 pick; Sched 0 pick; Sched 0 pick; Sched 0 pick]
         (rested n)
     = Done (rested (S n)).
Proof.
  intros H. split.
  - cbv -[advance NewTimer]. rewrite TimerProps.advance_due by done. reflexivity.
  - cbv -[advance timerReset]. unfold advance, timerReset. cbn.
    rewrite decide_True by done. reflexivity.
Qed.


(** X14.  A call of [start] or [stop] right after one that returned changes
    nothing: the second [start] arms nothing and spawns nothing, the second
    [stop] sends nothing. *)
Theorem repeated_start_or_stop_is_ignored d d' s s' :
  (start d s = Done s' -> start d' s' = Done s')
  /\ (stop s = Done s' -> stop s' = Done s').
Proof.
  split.
  - unfold start. destruct (decide (started (tm s) = 0)) as [Hz|Hnz].
    + intros [= <-]. simpl. reflexivity.
    + intros [= <-]. by rewrite decide_False.
  - unfold stop. destruct (decide (stopped (tm s) = 0)) as [Hz|Hnz].
    + simpl. destruct (closed (stopChan (tm s))); [done|].
      destruct (decide (buffered (stopChan (tm s)) < 1)%nat); [|done].
      intros [= <-]. reflexivity.
    + intros [= <-]. by rewrite decide_False.
Qed.

(** X15.  After [close]: a second [close] panics, a [stop] on a timer whose
    [stopped] flag is clear panics (it sends on the closed channel), and a
    goroutine of [start] never waits in its select again. *)
Theorem close_then_stop_panics s :
  closed (stopChan (tm s)) = false ->
  exists s', close s = Done s'
             /\ close s' = Panic
             /\ (stopped (tm s) = 0 -> stop s' = Panic)
             /\ (forall pick, workerStep pick AtSelect s' <> None).
Proof.
  intros Hc. unfold close. rewrite Hc. eexists. split_and!; [done| | |].
  - simpl. done.
  - intros Hs. unfold stop. simpl. by rewrite decide_True.
  - intros pick. simpl. unfold stopReady. simpl.
    rewrite orb_true_r. by destruct (timerReady _), pick.
Qed.

Lemma at_most_one_callback_in_flight_witness :
  (countIf inCallback [InCallback] <= 1)%nat.
Proof.
  apply (at_most_one_callback_in_flight
           [CallStart 5; Elapse 5; Sched 0 true]
           {| tm := {| interval := 0;
                       innerTimer := Some {| remaining := None; C := 0 |};
                       stopped := 0; started := 1;
                       stopChan := {| buffered := 0; closed := false |} |};
              workers := [InCallback]; fired := 1 |}).
  reflexivity.
Defined.

Lemma callback_runs_at_most_once_per_start_witness :
  (fired (rested 1) <= startCalls [CallStart 5; Elapse 5; Sched 0 true;
                                   CallStart 7; Sched 0 true; Sched 0 true;
                                   Sched 0 true; Sched 0 true])%nat.
Proof.
  apply (callback_runs_at_most_once_per_start
           [CallStart 5; Elapse 5; Sched 0 true; CallStart 7; Sched 0 true;
            Sched 0 true; Sched 0 true; Sched 0 true] newTimer (rested 1));
    reflexivity.
Defined.

Lemma armed_timer_fires_once_per_round_witness :
  run [CallStart 5; Elapse 6;
       Sched 0 false; Sched 0 false; Sched 0 false; Sched 0 false; Sched 0 false]
      (rested 2)
  = Done (rested 3).
Proof.
  apply (armed_timer_fires_once_per_round 2 5 6 false). lia.
Defined.


Lemma close_then_stop_panics_witness :
  exists s', close newTimer = Done s' /\ close s' = Panic.
Proof.
  destruct (close_then_stop_panics newTimer eq_refl) as (s' & H1 & H2 & _).
  exists s'. by split.
Defined.

End TimerMore.

(** ** The stats store: invariants *)

Module StatsMore.
Import stats.

Implicit Types (x y ls : gmap string string) (ms : list Metrics) (st : store).
Implicit Types (m : Metrics).

(** X16.  [mapEqual] is equality of label sets: it answers true exactly for maps
    with the same keys and values, and the order of its arguments does not
    matter. *)
Theorem mapEqual_decides_equality x y :
  (mapEqual x y = true <-> x = y)
  /\ (mapEqual x y = false <-> x <> y)
  /\ mapEqual x y = mapEqual y x.
Proof.
  pose proof (StatsProps.mapEqual_spec x y) as Hxy.
  pose proof (StatsProps.mapEqual_spec y x) as Hyx.
  split_and!; [done| |].
  - split.
    + intros E Heq. apply Hxy in Heq. congruence.
    + intros Hne. destruct (mapEqual x y) eqn:E; [|done].
      exfalso. apply Hne. by apply Hxy.
  - destruct (mapEqual x y) eqn:E1, (mapEqual y x) eqn:E2; try done.
    + assert (x = y) as -> by by apply Hxy.
      rewrite StatsProps.mapEqual_refl in E2. done.
    + assert (y = x) as -> by by apply Hyx.
      rewrite StatsProps.mapEqual_refl in E1. done.
Qed.

Lemma findExisting_None t ls ms m :
  findExisting t ls ms = None -> m ∈ ms -> ~ (Type_ m = t /\ Labels m = ls).
Proof.
  induction ms as [|m' ms IH]; simpl; [by intros _ ?%elem_of_nil|].
  destruct (bool_decide (Type_ m' = t) && mapEqual (Labels m') ls) eqn:E; [done|].
  intros Hn [->|Hin]%elem_of_cons; [|by apply IH].
  intros [Ht Hl]. apply andb_false_iff in E as [E|E].
  - by apply bool_decide_eq_false in E.
  - rewrite Hl, StatsProps.mapEqual_refl in E. done.
Qed.

(** What [NewStats] does within the cap, in one statement. *)
Lemma NewStats_within_cap t ls st :
  (size ls <= maxLabelCount)%nat ->
  exists m st',
    NewStats t ls st = (Some m, None, st')
    /\ Type_ m = t /\ Labels m = ls
    /\ findExisting t ls (metrics st') = Some m
    /\ ((findExisting t ls (metrics st) = Some m /\ st' = st)
        \/ (findExisting t ls (metrics st) = None
            /\ ptr m = next_ptr st
            /\ registry (pointee m) = ∅
            /\ st' = {| metrics := metrics st ++ [m];
                        next_ptr := S (next_ptr st) |})).
Proof.
  intros Hle. unfold NewStats. rewrite decide_False by lia.
  destruct (findExisting t ls (metrics st)) as [m|] eqn:Hf.
  - exists m, st. destruct (StatsProps.findExisting_Some _ _ _ _ Hf) as (_ & ? & ?).
    split_and!; auto.
  - eexists _, _. split_and!; [done|done|done| |right; done].
    simpl. by rewrite StatsProps.findExisting_app, Hf, StatsProps.findExisting_new.
Qed.

(** X17.  [NewStats] never removes, replaces or reorders an instance of the store:
    the store afterwards is the store before, followed by at most one new
    instance, and the instance returned is in it. *)
Theorem NewStats_only_appends t ls st :
  let st' := snd (NewStats t ls st) in
  (exists new, metrics st' = metrics st ++ new /\ (length new <= 1)%nat)
  /\ (next_ptr st <= next_ptr st')%nat
  /\ (forall m, fst (fst (NewStats t ls st)) = Some m -> m ∈ metrics st')
  /\ ((maxLabelCount < size ls)%nat -> st' = st).
Proof.
  intros st'. subst st'.
  destruct (decide (maxLabelCount < size ls)%nat) as [Hgt|Hle].
  - unfold NewStats. rewrite decide_True by done. simpl.
    split_and!; [exists []; split; [by rewrite app_nil_r|simpl; lia]|done|done|done].
  - destruct (NewStats_within_cap t ls st) as (m & st' & -> & _ & _ & Hf & Hcase);
      [lia|]. simpl.
    split_and!; [| |intros ? [= <-]|lia].
    + destruct Hcase as [[_ ->]|(_ & _ & _ & ->)]; simpl.
      * exists []. split; [by rewrite app_nil_r|simpl; lia].
      * exists [m]. split; [done|simpl; lia].
    + destruct Hcase as [[_ ->]|(_ & _ & _ & ->)]; simpl; lia.
    + by apply StatsProps.findExisting_Some in Hf as [? _].
Qed.

Lemma wellFormed_empty n : wellFormed {| metrics := []; next_ptr := n |}.
Proof.
  unfold wellFormed. simpl.
  split_and!; [by intros ? ?%elem_of_nil|constructor|constructor|
               by intros ? ?%elem_of_nil].
Qed.

Lemma NewStats_wellFormed t ls st :
  wellFormed st -> wellFormed (snd (NewStats t ls st)).
Proof.
  intros (Hptr & Hnd & Hpairs & Hcap).
  destruct (decide (maxLabelCount < size ls)%nat) as [Hgt|Hle].
  { unfold NewStats. by rewrite decide_True. }
  destruct (NewStats_within_cap t ls st) as (m & st' & -> & Ht & Hl & _ & Hcase);
    [lia|]. simpl.
  destruct Hcase as [[_ ->]|(Hnone & Hp & _ & ->)]; [done|].
  unfold wellFormed. simpl. split_and!.
  - intros m0 [Hin|Hin%list_elem_of_singleton]%elem_of_app.
    + specialize (Hptr _ Hin). lia.
    + subst m0. lia.
  - rewrite fmap_app. apply NoDup_app. split_and!; [done| |apply NoDup_singleton].
    intros p (m0 & -> & Hin)%list_elem_of_fmap Hp'%list_elem_of_singleton.
    specialize (Hptr _ Hin). simpl in Hp'. lia.
  - rewrite fmap_app. apply NoDup_app. split_and!; [done| |apply NoDup_singleton].
    intros pr (m0 & -> & Hin)%list_elem_of_fmap Hp'%list_elem_of_singleton.
    simpl in Hp'. injection Hp' as H1 H2.
    apply (findExisting_None _ _ _ m0 Hnone Hin). split; congruence.
  - intros m0 [Hin|Hin%list_elem_of_singleton]%elem_of_app; [by apply Hcap|].
    subst m0. rewrite Hl. lia.
Qed.

(** X18.  The store stays well formed under [NewStats] and [ResetAll], and the
    empty store is well formed: in a store built from the empty one by these
    two, all instances have different addresses, no two have the same type
    and label set, and none has more than ten labels. *)
Theorem store_stays_well_formed t ls st :
  wellFormed st ->
  wellFormed (snd (NewStats t ls st))
  /\ wellFormed (fst (ResetAll st))
  /\ wellFormed {| metrics := []; next_ptr := 0 |}.
Proof.
  intros Hwf. split_and!.
  - by apply NewStats_wellFormed.
  - apply wellFormed_empty.
  - apply wellFormed_empty.
Qed.

(** X19.  Two calls in a row, both within the label cap, return the same instance
    exactly when they are given the same type and the same label set. *)
Theorem NewStats_same_instance_iff_same_pair t ls t' ls' st :
  (size ls <= maxLabelCount)%nat ->
  (size ls' <= maxLabelCount)%nat ->
  let r1 := NewStats t ls st in
  let r2 := NewStats t' ls' (snd r1) in
  fst (fst r1) = fst (fst r2) <-> (t = t' /\ ls = ls').
Proof.
  intros H1 H2 r1 r2. subst r1 r2.
  destruct (NewStats_within_cap t ls st H1) as (m & st' & -> & Ht & Hl & Hf & _).
  simpl.
  destruct (NewStats_within_cap t' ls' st' H2) as (m' & st'' & E & Ht' & Hl' & _ & _).
  rewrite E. simpl. split.
  - intros [= <-]. split; congruence.
  - intros [<- <-]. unfold NewStats in E. rewrite decide_False in E by lia.
    rewrite Hf in E. congruence.
Qed.

(** X20.  [ResetAll] forgets: the store is empty afterwards, the instances it held
    are the same objects with their registries emptied, and the next
    [NewStats] makes a new instance, at an address none of the forgotten ones
    has, which is then the only one in the store. *)
Theorem ResetAll_forgets_instances t ls st :
  wellFormed st ->
  (size ls <= maxLabelCount)%nat ->
  let st0 := fst (ResetAll st) in
  let old := snd (ResetAll st) in
  GetAll st0 = []
  /\ ptr <$> old = ptr <$> metrics st
  /\ (fun m => (Type_ m, Labels m)) <$> old
     = (fun m => (Type_ m, Labels m)) <$> metrics st
  /\ (forall m, m ∈ old -> registry (pointee m) = ∅)
  /\ exists m', NewStats t ls st0
                = (Some m', None, {| metrics := [m']; next_ptr := S (next_ptr st) |})
                /\ registry (pointee m') = ∅
                /\ forall m, m ∈ metrics st -> ptr m' <> ptr m.
Proof.
  intros (Hptr & _) Hle st0 old. subst st0 old. simpl. split_and!.
  - done.
  - rewrite <- list_fmap_compose. done.
  - rewrite <- list_fmap_compose. done.
  - by intros m (m0 & -> & _)%list_elem_of_fmap.
  - unfold NewStats. rewrite decide_False by lia. simpl.
    eexists. split_and!; [done|done|].
    intros m Hin. specialize (Hptr _ Hin). simpl. lia.
Qed.

(** *** SortedLabels *)

Section WithSort.
Variable sortStrings : list string -> list string.
Hypothesis sort_permutes : forall l, sortStrings l ≡ₚ l.

Lemma zip_with_image {A B} (f : A -> B) (l : list A) :
  zip l (f <$> l) = (fun a => (a, f a)) <$> l.
Proof. induction l as [|a l IH]; [done|]. csimpl. by f_equal. Qed.

Lemma fmap_fixes {A} (g : A -> A) (l : list A) :
  (forall a, a ∈ l -> g a = a) -> g <$> l = l.
Proof.
  induction l as [|a l IH]; intros H; [done|]. csimpl. f_equal.
  - apply H, elem_of_cons. by left.
  - apply IH. intros b Hb. apply H, elem_of_cons. by right.
Qed.

(** X21.  [SortedLabels] of an instance without cached slices (as [NewStats] makes
    them): the keys are the keys of the label map, each once, in the order
    the sort puts them; the values are as many, the i-th being the label of
    the i-th key; zipping the two gives back the label map.  With both
    slices cached it returns them as they are. *)
Theorem SortedLabels_lists_every_label_once (s : Stats) :
  labelKeys s = None \/ labelVals s = None ->
  let keys := fst (SortedLabels sortStrings s) in
  let values := snd (SortedLabels sortStrings s) in
  keys ≡ₚ fst <$> map_to_list (labels s)
  /\ NoDup keys
  /\ (forall k, k ∈ keys <-> is_Some (labels s !! k))
  /\ length values = length keys
  /\ length keys = size (labels s)
  /\ (forall i k, keys !! i = Some k -> labels s !! k = values !! i)
  /\ list_to_map (zip keys values) = labels s.
Proof.
  intros Hnc keys values.
  assert (SortedLabels sortStrings s
          = (sortStrings (fst <$> map_to_list (labels s)),
             (fun k => default ""%string (labels s !! k))
               <$> sortStrings (fst <$> map_to_list (labels s)))) as E.
  { unfold SortedLabels. destruct Hnc as [-> | ->]; [done|].
    by destruct (labelKeys s). }
  subst keys values. rewrite E. simpl.
  set (ks := sortStrings _).
  assert (ks ≡ₚ fst <$> map_to_list (labels s)) as Hperm by apply sort_permutes.
  assert (NoDup ks) as Hnd.
  { rewrite Hperm. apply NoDup_fst_map_to_list. }
  assert (forall k, k ∈ ks <-> is_Some (labels s !! k)) as Hin.
  { intros k. rewrite Hperm, list_elem_of_fmap. split.
    - intros ([k' v] & -> & Hkv). apply elem_of_map_to_list in Hkv.
      simpl. eauto.
    - intros [v Hv]. exists (k, v). split; [done|].
      by apply elem_of_map_to_list. }
  split_and!; try done.
  - by rewrite length_fmap.
  - by rewrite Hperm, length_fmap, length_map_to_list.
  - intros i k Hk. rewrite list_lookup_fmap, Hk. simpl.
    destruct (Hin k) as [[v ->] _]; [|done].
    apply list_elem_of_lookup. eauto.
  - rewrite zip_with_image.
    trans (list_to_map (M:=gmap string string) (map_to_list (labels s)));
      [|apply list_to_map_to_list].
    apply list_to_map_proper.
    + rewrite <- list_fmap_compose. simpl.
      rewrite (fmap_fixes (fst ∘ _)); done.
    + rewrite Hperm, <- list_fmap_compose. rewrite fmap_fixes; [done|].
      intros [k v] Hkv%elem_of_map_to_list. simpl. by rewrite Hkv.
Qed.

Lemma SortedLabels_cached (s : Stats) ks vs :
  labelKeys s = Some ks -> labelVals s = Some vs ->
  SortedLabels sortStrings s = (ks, vs).
Proof. unfold SortedLabels. by intros -> ->. Qed.

End WithSort.

Lemma store_stays_well_formed_witness :
  wellFormed (snd (NewStats "health" Demo.labels2 Demo.emptyStore)).
Proof.
  apply (store_stays_well_formed "health" Demo.labels2 Demo.emptyStore).
  apply wellFormed_empty.
Defined.

Lemma NewStats_same_instance_iff_same_pair_witness :
  let r1 := NewStats "health" Demo.labels2 Demo.emptyStore in
  let r2 := NewStats "upstream" Demo.labels2 (snd r1) in
  fst (fst r1) = fst (fst r2) <-> ("health" = "upstream" /\ Demo.labels2 = Demo.labels2).
Proof.
  apply (NewStats_same_instance_iff_same_pair
           "health" Demo.labels2 "upstream" Demo.labels2 Demo.emptyStore);
    vm_compute; lia.
Defined.

Lemma ResetAll_forgets_instances_witness :
  GetAll (fst (ResetAll (snd (NewStats "health" Demo.labels2 Demo.emptyStore)))) = [].
Proof.
  apply (ResetAll_forgets_instances "health" Demo.labels2
           (snd (NewStats "health" Demo.labels2 Demo.emptyStore))).
  - apply NewStats_wellFormed, wellFormed_empty.
  - vm_compute. lia.
Defined.

Lemma SortedLabels_lists_every_label_once_witness :
  let s := {| typ := "health"; labels := Demo.labels2; labelKeys := None;
              labelVals := None; registry := ∅ |} in
  list_to_map (zip (fst (SortedLabels Demo.sortStrings s))
                   (snd (SortedLabels Demo.sortStrings s)))
  = labels s.
Proof.
  intros s.
  apply (SortedLabels_lists_every_label_once Demo.sortStrings
           (fun l => merge_sort_Permutation _ l) s).
  by left.
Defined.

Example SortedLabels_sorted :
  SortedLabels Demo.sortStrings
    {| typ := "health"; labels := Demo.labels2; labelKeys := None;
       labelVals := None; registry := ∅ |}
  = (["cluster"; "host"], ["c1"; "h1"])%string.
Proof. vm_compute. reflexivity. Qed.

End StatsMore.

(** ** Router utilities *)

Module RouterMore.
Import router.

Section WithMetadata.
Context {HashedValue MetadataMatchCriteria : Type}.
Context (GenerateHashedValue : string -> HashedValue).
Context (NewMetadataMatchCriteriaImpl : gmap string string -> MetadataMatchCriteria).

Implicit Types (l : list WeightedCluster) (wc : WeightedCluster).

(** X22.  [getClusterMosnLBMetaDataMap] hashes the values and keeps the keys: the
    result has an entry exactly for the keys of the metadata, each with the
    hashed value of that key. *)
Theorem getClusterMosnLBMetaDataMap_hashes_each_value (metadata : gmap string string) :
  getClusterMosnLBMetaDataMap GenerateHashedValue metadata
  = GenerateHashedValue <$> metadata
  /\ (forall key, getClusterMosnLBMetaDataMap GenerateHashedValue metadata !! key
                  = GenerateHashedValue <$> metadata !! key)
  /\ dom (getClusterMosnLBMetaDataMap GenerateHashedValue metadata) = dom metadata
  /\ size (getClusterMosnLBMetaDataMap GenerateHashedValue metadata) = size metadata.
Proof.
  assert (getClusterMosnLBMetaDataMap GenerateHashedValue metadata
          = GenerateHashedValue <$> metadata) as E.
  { unfold getClusterMosnLBMetaDataMap.
    apply (map_fold_weak_ind
             (fun (r : gmap string HashedValue) (m : gmap string string) =>
                r = GenerateHashedValue <$> m)).
    - by rewrite fmap_empty.
    - intros key value m r _ ->. by rewrite fmap_insert. }
  rewrite E. split_and!; [done| | |].
  - intros key. apply lookup_fmap.
  - apply dom_fmap_L.
  - apply map_size_fmap.
Qed.

(** *** getWeightedClusterEntry *)

Local Abbreviation entry := (entryOf NewMetadataMatchCriteriaImpl).

Lemma getWeightedClusterEntry_split l
    (m : gmap string weightedClusterEntry) (a : Z) :
  foldl (fun '(weightedClusterEntries, totalWeight) weightedCluster =>
           let subsetLBMetaData := MetadataMatch (Cluster weightedCluster) in
           let totalWeight :=
             uint32_add totalWeight (Weight (Cluster weightedCluster)) in
           (<[cwName (Cluster weightedCluster) :=
                {| clusterName := cwName (Cluster weightedCluster);
                   clusterWeight := Weight (Cluster weightedCluster);
                   clusterMetadataMatchCriteria :=
                     NewMetadataMatchCriteriaImpl subsetLBMetaData |}]>
              weightedClusterEntries,
            totalWeight))
        (m, a) l
  = (foldl (fun m wc => <[cwName (Cluster wc) := entry wc]> m) m l,
     foldl (fun a wc => uint32_add a (Weight (Cluster wc))) a l).
Proof.
  revert m a. induction l as [|wc l IH]; intros m a; [done|].
  cbn [foldl]. etrans; [apply IH|]. done.
Qed.

Lemma total_fold l a :
  foldl (fun a wc => uint32_add a (Weight (Cluster wc))) a l
  = match l with
    | [] => a
    | _ => (a + sumWeights l) mod 2 ^ 32
    end.
Proof.
  revert a. induction l as [|wc l IH]; intros a; [done|].
  cbn [foldl]. rewrite IH. unfold uint32_add. destruct l as [|wc' l].
  - simpl. f_equal. lia.
  - rewrite Zplus_mod_idemp_l. f_equal. simpl. lia.
Qed.

Lemma entries_fold l (m : gmap string weightedClusterEntry) name :
  foldl (fun m wc => <[cwName (Cluster wc) := entry wc]> m) m l !! name
  = match last (filter (fun wc => cwName (Cluster wc) = name) l) with
    | Some wc => Some (entry wc)
    | None => m !! name
    end.
Proof.
  revert m. induction l as [|wc l IH]; intros m; [done|].
  cbn [foldl]. rewrite IH, filter_cons.
  destruct (decide (cwName (Cluster wc) = name)) as [<-|Hne].
  - destruct (filter _ l) as [|wc' ws] eqn:E; simpl.
    + by rewrite lookup_insert_eq.
    + rewrite last_cons. simpl. by destruct (last ws).
  - destruct (last (filter _ l)); [done|]. by rewrite lookup_insert_ne.
Qed.

(** X23.  [getWeightedClusterEntry].  The total is the sum of all the weights of
    the list modulo 2^32, so the sum itself when the weights are not
    negative and add up to less than 2^32.  The map has an entry under a
    name exactly when a cluster of the list has that name, and the entry is
    that of the last such cluster: clusters that share a name are counted in
    the total once each but leave one entry. *)
Theorem getWeightedClusterEntry_total_and_entries l :
  let entries := fst (getWeightedClusterEntry NewMetadataMatchCriteriaImpl l) in
  let totalWeight := snd (getWeightedClusterEntry NewMetadataMatchCriteriaImpl l) in
  totalWeight = sumWeights l mod 2 ^ 32
  /\ (Forall (fun wc => 0 <= Weight (Cluster wc)) l -> sumWeights l < 2 ^ 32 ->
      totalWeight = sumWeights l)
  /\ (forall name,
        entries !! name
        = entry <$> last (filter (fun wc => cwName (Cluster wc) = name) l))
  /\ (forall name, is_Some (entries !! name)
                   <-> name ∈ (fun wc => cwName (Cluster wc)) <$> l)
  /\ (forall name e, entries !! name = Some e -> clusterName e = name).
Proof.
  intros entries totalWeight. subst entries totalWeight.
  unfold getWeightedClusterEntry. rewrite getWeightedClusterEntry_split. simpl.
  assert (foldl (fun a wc => uint32_add a (Weight (Cluster wc))) 0 l
          = sumWeights l mod 2 ^ 32) as Htot.
  { rewrite total_fold. destruct l; [done|]. f_equal. }
  assert (forall name,
            foldl (fun m wc => <[cwName (Cluster wc) := entry wc]> m)
                  (∅ : gmap string weightedClusterEntry) l !! name
            = entry <$> last (filter (fun wc => cwName (Cluster wc) = name) l))
    as Hent.
  { intros name. rewrite entries_fold. by destruct (last _). }
  split_and!.
  - done.
  - intros Hpos Hlt. rewrite Htot. apply Z.mod_small. split; [|done].
    clear -Hpos. induction Hpos as [|wc l H _ IH]; simpl; lia.
  - done.
  - intros name. rewrite Hent, fmap_is_Some, list_elem_of_fmap. split.
    + intros [wc Hwc]. apply last_Some_elem_of, list_elem_of_filter in Hwc
        as [<- Hin]. eauto.
    + intros (wc & -> & Hin).
      assert (wc ∈ filter (fun wc' => cwName (Cluster wc') = cwName (Cluster wc)) l)
        as Hf by by apply list_elem_of_filter.
      destruct (filter _ l) as [|x xs] eqn:E using rev_ind.
      * by apply elem_of_nil in Hf.
      * rewrite last_snoc. eauto.
  - intros name e. rewrite Hent. intros (wc & Hwc & ->)%fmap_Some.
    by apply last_Some_elem_of, list_elem_of_filter in Hwc as [<- _].
Qed.

End WithMetadata.

(** *** getRouterHeaders, the count *)

Section WithRegexp.
Context {Regexp : Type} (Compile : string -> Regexp + string).

Lemma kept_or_logged (headers : list HeaderMatcher) :
  (length (omap (kept Compile) headers)
   + length (filter (logged Compile) headers) = length headers)%nat.
Proof.
  induction headers as [|h hs IH]; [done|].
  rewrite filter_cons. csimpl. unfold kept at 1.
  destruct (decide (logged Compile h)) as [[Hr [p Hp]]|Hn].
  - rewrite Hr, Hp. simpl. lia.
  - destruct (Regex h) eqn:Hr.
    + destruct (Compile (Name h)) as [p|e] eqn:Hc.
      * exfalso. apply Hn. split; eauto.
      * simpl. lia.
    + simpl. lia.
Qed.

Lemma kept_names_sublist (headers : list HeaderMatcher) :
  (fun d : HeaderData => str (hdName d)) <$> omap (kept Compile) headers
  `sublist_of` Name <$> headers.
Proof.
  induction headers as [|h hs IH]; [done|].
  csimpl. unfold kept at 1.
  destruct (Regex h); [destruct (Compile (Name h))|]; csimpl.
  - by apply sublist_cons.
  - by apply sublist_skip.
  - by apply sublist_skip.
Qed.

Lemma kept_all_plain (headers : list HeaderMatcher) :
  Forall (fun h => Regex h = false) headers ->
  omap (kept Compile) headers = newHeaderData <$> headers
  /\ filter (logged Compile) headers = [].
Proof.
  induction 1 as [|h hs Hh _ [IH1 IH2]]; [done|].
  rewrite filter_cons. csimpl. unfold kept at 1. rewrite Hh, IH1.
  split; [done|]. rewrite decide_False; [done|]. intros [F _]. congruence.
Qed.

(** X24.  Every matcher given to [getRouterHeaders] is either returned or logged,
    never both and never dropped silently: results and log lines together
    are as many as the matchers.  The names returned are names of the input,
    letter for letter, in the order of the input.  Without regex matchers
    the result is the whole input and the log is empty. *)
Theorem getRouterHeaders_returns_or_logs_each_matcher
    (headers : list HeaderMatcher) :
  let result := fst (getRouterHeaders Compile headers) in
  let log := snd (getRouterHeaders Compile headers) in
  (length result + length log = length headers)%nat
  /\ (fun d : HeaderData => str (hdName d)) <$> result `sublist_of` Name <$> headers
  /\ (Forall (fun h => Regex h = false) headers ->
      result = newHeaderData <$> headers /\ log = []).
Proof.
  intros result log. subst result log. unfold getRouterHeaders.
  rewrite RouterProps.getRouterHeaders_loop. simpl. split_and!.
  - rewrite length_fmap. apply kept_or_logged.
  - apply kept_names_sublist.
  - intros Hall. destruct (kept_all_plain headers Hall) as [-> ->]. done.
Qed.

End WithRegexp.

Lemma getWeightedClusterEntry_total_and_entries_witness :
  let l := [ {| Cluster := {| cwName := "a"; Weight := 90; MetadataMatch := ∅ |} |};
             {| Cluster := {| cwName := "b"; Weight := 10; MetadataMatch := ∅ |} |};
             {| Cluster := {| cwName := "a"; Weight := 5; MetadataMatch := ∅ |} |} ]%string in
  snd (getWeightedClusterEntry (fun md => size md) l) = sumWeights l.
Proof.
  intros l.
  apply (getWeightedClusterEntry_total_and_entries (fun md => size md) l).
  - repeat constructor; vm_compute; discriminate.
  - reflexivity.
Defined.

Example getWeightedClusterEntry_wraps :
  snd (getWeightedClusterEntry (fun md => size md)
         [ {| Cluster := {| cwName := "a"; Weight := 2 ^ 32 - 1; MetadataMatch := ∅ |} |};
           {| Cluster := {| cwName := "b"; Weight := 2; MetadataMatch := ∅ |} |} ]%string)
  = 1.
Proof. reflexivity. Qed.

End RouterMore.

(** ** The orchestrator: checkers started and stopped *)

Module HealthcheckLifecycle.
Import healthcheck.

Section Lifecycle.
Context `{C : Collaborators}.
Implicit Types (w : World) (h : Host) (l : list Host) (es : list Effect).

Local Abbreviation addr := AddressString.









(** X9.  The registry keeps, for each protocol, the factory registered last:
    registering again for a protocol replaces the earlier registration, a
    registration for another protocol does not change what
    [CreateHealthCheck] builds, and registrations for different protocols
    can be made in either order. *)
Theorem RegisterSessionFactory_last_registration_wins
    (sessionFactories : gmap string HealthCheckSessionFactory)
    p q f g ccbs mk now (cfg : HealthCheck) (cl : Cluster) :
  RegisterSessionFactory p g (RegisterSessionFactory p f sessionFactories)
  = RegisterSessionFactory p g sessionFactories
  /\ (q <> Protocol cfg ->
      CreateHealthCheck (RegisterSessionFactory q g sessionFactories)
                        ccbs mk now cfg cl
      = CreateHealthCheck sessionFactories ccbs mk now cfg cl)
  /\ (p <> q ->
      RegisterSessionFactory p f (RegisterSessionFactory q g sessionFactories)
      = RegisterSessionFactory q g (RegisterSessionFactory p f sessionFactories)).
Proof.
  unfold RegisterSessionFactory, CreateHealthCheck. split_and!.
  - apply insert_insert_eq.
  - intros Hne. by rewrite lookup_insert_ne.
  - intros Hne. by apply insert_insert_ne.
Qed.

End Lifecycle.
End HealthcheckLifecycle.
